(** * Eris client core, as vendored in the Discord Mafia bot

    A shallow embedding of the parts of [Client] (lib/Client.js) and of the
    entity classes [GroupChannel] and [Member] that the specification talks
    about: the connect sequencer ([queueConnect] / [tryConnect]), the gateway
    URL cache ([getGateway]), chunked bulk deletion ([deleteMessages]), the
    entity merge ([update]), voice joining ([joinVoiceChannel]) and message
    creation ([createMessage]).

    Promises are modelled by their settlement, timers by their due time, and
    the collaborators whose sources are not part of the repository (Shard,
    Collection, RequestHandler, VoiceConnectionManager) by explicit
    environment events or parameters. *)

From Stdlib Require Import ZArith String Ascii List Lia Bool DecimalString.
From stdpp Require Import base option list gmap strings.
From Equations Require Import Equations.

Set Warnings "-register-all".
Local Open Scope string_scope.
Local Open Scope Z_scope.
Local Open Scope list_scope.

(** ** JavaScript values *)

Module JS.

(** Plain data as it travels through the client: gateway payloads, user
    supplied message contents, option values. *)
Inductive jsval : Type :=
| JUndefined
| JNull
| JBool (b : bool)
| JNum (n : Z)
| JNaN
| JStr (s : string)
| JArr (items : list jsval)
| JObj (fields : list (string * jsval)).

(** ToBoolean. *)
Definition truthy (v : jsval) : bool :=
  match v with
  | JUndefined | JNull | JNaN => false
  | JBool b => b
  | JNum n => negb (n =? 0)
  | JStr s => negb (String.eqb s "")
  | JArr _ | JObj _ => true
  end.

(** The [typeof] operator. *)
Definition typeof (v : jsval) : string :=
  match v with
  | JUndefined => "undefined"
  | JBool _ => "boolean"
  | JNum _ | JNaN => "number"
  | JStr _ => "string"
  | JNull | JArr _ | JObj _ => "object"
  end.

Definition is_undefined (v : jsval) : bool :=
  match v with JUndefined => true | _ => false end.

(** [a || b] *)
Definition or_else (a b : jsval) : jsval := if truthy a then a else b.

Definition string_of_Z (n : Z) : string :=
  NilZero.string_of_int (Z.to_int n).

(** ToString, as used by ["" + v] and by [v.toString()] on plain data.
    Arrays join their elements with commas, holes for null and undefined. *)
Fixpoint toString (v : jsval) : string :=
  match v with
  | JUndefined => "undefined"
  | JNull => "null"
  | JBool true => "true"
  | JBool false => "false"
  | JNum n => string_of_Z n
  | JNaN => "NaN"
  | JStr s => s
  | JArr items =>
      (fix join (l : list jsval) : string :=
         match l with
         | [] => ""
         | x :: rest =>
             let e := match x with
                      | JUndefined | JNull => ""
                      | _ => toString x
                      end in
             match rest with
             | [] => e
             | _ :: _ => (e ++ "," ++ join rest)%string
             end
         end) items
  | JObj _ => "[object Object]"
  end.

(** Property read on an object literal; a missing key reads as undefined. *)
Fixpoint assoc (k : string) (fields : list (string * jsval)) : jsval :=
  match fields with
  | [] => JUndefined
  | (k', v) :: rest => if String.eqb k k' then v else assoc k rest
  end.

(** Property write: overwrite in place, or append a new key. *)
Fixpoint assoc_set (k : string) (v : jsval) (fields : list (string * jsval))
  : list (string * jsval) :=
  match fields with
  | [] => [(k, v)]
  | (k', v') :: rest =>
      if String.eqb k k' then (k', v) :: rest else (k', v') :: assoc_set k v rest
  end.

(** [s.endsWith(suffix)] *)
Definition endsWith (suffix s : string) : bool :=
  let n := String.length s in
  let m := String.length suffix in
  (m <=? n)%nat && String.eqb (substring (n - m) m s) suffix.

(** [s.indexOf(needle)], [None] standing for -1. *)
Definition indexOf (needle s : string) : option nat := String.index 0 needle s.

(** [s.includes(needle)] *)
Definition includes (needle s : string) : bool :=
  match indexOf needle s with Some _ => true | None => false end.

End JS.

(** ** Timing *)

(** Consecutive instants lie at least [gap] apart. *)
Fixpoint spaced (gap : Z) (times : list Z) : bool :=
  match times with
  | a :: (b :: _) as rest => (a + gap <=? b) && spaced gap rest
  | _ => true
  end.

(** ** The connect sequencer: [Client.queueConnect] and [Client.tryConnect] *)

Module Sequencer.

(** What the client reads of a shard: its id in the collection and the
    [connecting] flag. *)
Record Shard : Type := mkShard {
  shard_id : nat;
  connecting : bool;
}.

Inductive Path : Type := Bypass | Timer.

(** One call of [shard.connect()] made by the client. *)
Record Admission : Type := mkAdmission {
  adm_shard : nat;
  adm_time : Z;
  adm_path : Path;
}.

(** The fields of [Client] the sequencer works on.  [connectTimeout] holds
    the due time of the pending timer.  [admitLog] and [requestLog] are
    ghost state: the calls of [connect()] and the pushes onto
    [connectQueue], in order. *)
Record Client : Type := mkClient {
  firstShardID : nat;
  lastShardID : nat;
  lastReadyPacket : Z;
  connectQueue : list nat;
  connectTimeout : option Z;
  shards : list Shard;
  admitLog : list Admission;
  requestLog : list nat;
}.

(** State after the constructor. *)
Definition newClient (first last : nat) : Client :=
  {| firstShardID := first; lastShardID := last;
     lastReadyPacket := 0; connectQueue := []; connectTimeout := None;
     shards := []; admitLog := []; requestLog := [] |}.

Definition set_lastReadyPacket (v : Z) (c : Client) : Client :=
  {| firstShardID := firstShardID c; lastShardID := lastShardID c;
     lastReadyPacket := v; connectQueue := connectQueue c;
     connectTimeout := connectTimeout c; shards := shards c;
     admitLog := admitLog c; requestLog := requestLog c |}.

Definition set_connectQueue (q : list nat) (c : Client) : Client :=
  {| firstShardID := firstShardID c; lastShardID := lastShardID c;
     lastReadyPacket := lastReadyPacket c; connectQueue := q;
     connectTimeout := connectTimeout c; shards := shards c;
     admitLog := admitLog c; requestLog := requestLog c |}.

Definition set_connectTimeout (t : option Z) (c : Client) : Client :=
  {| firstShardID := firstShardID c; lastShardID := lastShardID c;
     lastReadyPacket := lastReadyPacket c; connectQueue := connectQueue c;
     connectTimeout := t; shards := shards c;
     admitLog := admitLog c; requestLog := requestLog c |}.

Definition set_shards (l : list Shard) (c : Client) : Client :=
  {| firstShardID := firstShardID c; lastShardID := lastShardID c;
     lastReadyPacket := lastReadyPacket c; connectQueue := connectQueue c;
     connectTimeout := connectTimeout c; shards := l;
     admitLog := admitLog c; requestLog := requestLog c |}.

Definition log_admission (a : Admission) (c : Client) : Client :=
  {| firstShardID := firstShardID c; lastShardID := lastShardID c;
     lastReadyPacket := lastReadyPacket c; connectQueue := connectQueue c;
     connectTimeout := connectTimeout c; shards := shards c;
     admitLog := admitLog c ++ [a]; requestLog := requestLog c |}.

Definition log_request (i : nat) (c : Client) : Client :=
  {| firstShardID := firstShardID c; lastShardID := lastShardID c;
     lastReadyPacket := lastReadyPacket c; connectQueue := connectQueue c;
     connectTimeout := connectTimeout c; shards := shards c;
     admitLog := admitLog c; requestLog := requestLog c ++ [i] |}.

(** [this.shards.get(i)] *)
Definition shards_get (i : nat) (l : list Shard) : option Shard :=
  List.find (fun s => Nat.eqb (shard_id s) i) l.

(** [this.shards.find((shard) => shard.connecting)] *)
Definition find_connecting (l : list Shard) : option Shard :=
  List.find connecting l.

Definition set_flag (b : bool) (i : nat) (l : list Shard) : list Shard :=
  List.map (fun s => if Nat.eqb (shard_id s) i then mkShard (shard_id s) b else s) l.

(** Modelled from the spec: [Shard.connect] is not among the sources.  The
    shard enters the Connecting phase, which the client observes as its
    [connecting] flag. *)
Definition shard_connect (p : Path) (now : Z) (i : nat) (c : Client) : Client :=
  log_admission (mkAdmission i now p) (set_shards (set_flag true i (shards c)) c).

(** The guard shared by both admission paths:
    [this.lastReadyPacket <= Date.now() - 5250 &&
     !this.shards.find((shard) => shard.connecting)] *)
Definition may_admit (now : Z) (c : Client) : bool :=
  (lastReadyPacket c <=? now - 5250)
  && negb (bool_decide (is_Some (find_connecting (shards c)))).

(** Delay handed to [setTimeout] by [tryConnect]. *)
Definition timer_delay (now : Z) (c : Client) : Z :=
  Z.min (Z.max 250 (now - 5250 - lastReadyPacket c)) 5250.

(** [tryConnect()]: arm the timer unless one is pending. *)
Definition tryConnect (now : Z) (c : Client) : Client :=
  match connectTimeout c with
  | Some _ => c
  | None => set_connectTimeout (Some (now + timer_delay now c)) c
  end.

(** [queueConnect(shard)] *)
Definition queueConnect (now : Z) (i : nat) (c : Client) : Client :=
  if may_admit now c
  then shard_connect Bypass now i c
  else tryConnect now (log_request i (set_connectQueue (connectQueue c ++ [i]) c)).

(** The callback armed by [tryConnect]. *)
Definition timeout_callback (now : Z) (c : Client) : Client :=
  let c1 :=
    if (0 <? length (connectQueue c))%nat && may_admit now c
    then match connectQueue c with
         | head :: rest =>
             let c' := shard_connect Timer now head (set_connectQueue rest c) in
             set_lastReadyPacket (lastReadyPacket c' + 5250) c'
         | [] => c
         end
    else c in
  let c2 := set_connectTimeout None c1 in
  if (0 <? length (connectQueue c2))%nat then tryConnect now c2 else c2.

(** Body of the loop in [Client.connect]: fetch shard [i], creating it when
    the collection has none, and ask for its connection. *)
Definition connect_shard (now : Z) (c : Client) (i : nat) : Client :=
  let c' := match shards_get i (shards c) with
            | Some _ => c
            | None => set_shards (shards c ++ [mkShard i false]) c
            end in
  queueConnect now i c'.

(** The callback of [Client.connect], run once the gateway URL is there:
    [for (i = firstShardID; i <= lastShardID; ++i)]. *)
Definition connect_loop (now : Z) (c : Client) : Client :=
  fold_left (connect_shard now) (seq (firstShardID c) (S (lastShardID c) - firstShardID c)) c.

(** What can happen to the sequencer: the [then] callback of
    [Client.connect] runs, a shard of the collection asks for a connection,
    the timer fires.  [ShardSettled] and [ShardReady] stand for the shard
    side, whose source is absent: a shard leaves Connecting, and with
    [ShardReady] also stamps [lastReadyPacket] with the time of its ready
    packet.  Entering Connecting is left to [shard_connect]. *)
Inductive Event : Type :=
| Connect (now : Z)
| QueueConnect (now : Z) (i : nat)
| TimerFired (now : Z)
| ShardSettled (i : nat)
| ShardReady (now : Z) (i : nat).

Definition step (c : Client) (e : Event) : Client :=
  match e with
  | Connect now => connect_loop now c
  | QueueConnect now i =>
      match shards_get i (shards c) with
      | Some _ => queueConnect now i c
      | None => c
      end
  | TimerFired now =>
      match connectTimeout c with
      | Some due => if due <=? now then timeout_callback now c else c
      | None => c
      end
  | ShardSettled i => set_shards (set_flag false i (shards c)) c
  | ShardReady now i =>
      set_lastReadyPacket now (set_shards (set_flag false i (shards c)) c)
  end.

Definition run (c : Client) (evs : list Event) : Client := fold_left step evs c.

Definition shard_ids (l : list Shard) : list nat := List.map shard_id l.

(** How many shards of a collection are in the Connecting phase. *)
Definition connecting_in (l : list Shard) : nat := length (List.filter connecting l).

Definition connecting_count (c : Client) : nat := connecting_in (shards c).

(** The invariant of the sequencer: ids are unique in the collection and at
    most one shard is connecting. *)
Definition inv (c : Client) : Prop :=
  List.NoDup (shard_ids (shards c)) /\ (connecting_count c <= 1)%nat.

Definition is_timer (a : Admission) : bool :=
  match adm_path a with Timer => true | Bypass => false end.

Definition timer_admitted (c : Client) : list nat :=
  List.map adm_shard (List.filter is_timer (admitLog c)).

(** Sample runs: two shards asked to connect at 10000, the first of which
    leaves Connecting again. *)
Definition sample_trace : list Event :=
  [Connect 10000; TimerFired 14750; ShardSettled 0; TimerFired 15000; TimerFired 20250].

Definition waiting_client : Client :=
  run (newClient 0 1) [Connect 10000; ShardSettled 0].

End Sequencer.

(** ** REST requests and promise settlements *)

Module Rest.
Import JS.

(** The routes of [Constants.Endpoints] used below, kept symbolic. *)
Inductive Endpoint : Type :=
| GATEWAY
| CHANNEL_BULK_DELETE (channelID : string)
| CHANNEL_MESSAGE (channelID messageID : string)
| CHANNEL_MESSAGES (channelID : string).

(** Arguments of [requestHandler.request(method, url, auth, body, file)]. *)
Record Request : Type := mkRequest {
  req_method : string;
  req_url : Endpoint;
  req_auth : bool;
  req_body : jsval;
  req_file : jsval;
}.

Inductive Error : Type :=
| ChannelNotFound
| InsufficientPermission
| NoContentOrFile
| InvalidGatewayResponse
| TypeError
| Failure (payload : jsval).

(** How a promise ends. *)
Inductive Settled (A : Type) : Type :=
| Resolved (a : A)
| Rejected (e : Error).
Arguments Resolved {A} a.
Arguments Rejected {A} e.

End Rest.

(** ** [Client.getGateway] *)

Module Gateway.
Import JS Rest.

Record Client : Type := mkClient {
  gatewayURL : option string;
  gatewayVersion : jsval;
}.

(** [if (this.gatewayURL)]: set and not the empty string. *)
Definition cached (c : Client) : option string :=
  match gatewayURL c with
  | Some url => if String.eqb url "" then None else Some url
  | None => None
  end.

(** [data.url] on the body of the reply; reading a property of null or
    undefined throws. *)
Definition url_of (data : jsval) : option jsval :=
  match data with
  | JUndefined | JNull => None
  | JObj fields => Some (assoc "url" fields)
  | _ => Some JUndefined
  end.

(** Strip the query, close with a slash, append encoding and version. *)
Definition gateway_of (url : string) (version : jsval) : string :=
  let s1 := if includes "?" url
            then match indexOf "?" url with
                 | Some i => substring 0 i url
                 | None => url
                 end
            else url in
  let s2 := if endsWith "/" s1 then s1 else (s1 ++ "/")%string in
  (s2 ++ "?encoding=json&v=" ++ toString version)%string.

Definition gateway_request : Request :=
  mkRequest "GET" GATEWAY false JUndefined JUndefined.

(** [getGateway()], given how the REST call would settle.  Returns the
    client afterwards, the settlement of the returned promise and the REST
    requests issued. *)
Definition getGateway (c : Client) (reply : Settled jsval)
  : Client * Settled string * list Request :=
  match cached c with
  | Some url => (c, Resolved url, [])
  | None =>
      match reply with
      | Rejected e => (c, Rejected e, [gateway_request])
      | Resolved data =>
          match url_of data with
          | None => (c, Rejected TypeError, [gateway_request])
          | Some url =>
              if truthy url then
                match url with
                | JStr s =>
                    let g := gateway_of s (gatewayVersion c) in
                    (mkClient (Some g) (gatewayVersion c), Resolved g, [gateway_request])
                | _ => (c, Rejected TypeError, [gateway_request])
                end
              else (c, Rejected InvalidGatewayResponse, [gateway_request])
          end
      end
  end.

(** A series of calls, each settled before the next is made. *)
Fixpoint getGateway_seq (c : Client) (replies : list (Settled jsval))
  : list (Settled string * list Request) :=
  match replies with
  | [] => []
  | r :: rest =>
      let '(c', out, reqs) := getGateway c r in
      (out, reqs) :: getGateway_seq c' rest
  end.

Definition fresh_client : Client := mkClient None (JNum 6).

Definition hello : Settled jsval :=
  Resolved (JObj [("url", JStr "wss://gateway.discord.gg?x=1")]).

Definition resolved_url : string := "wss://gateway.discord.gg/?encoding=json&v=6".

(** *** Calls that overlap

    [getGateway] tests [this.gatewayURL] when it is called and assigns it
    in the [then] callback, when the reply has come; calls made in between
    find nothing cached. *)

(** The [then] callback, run on the body of the reply; a failed request
    passes its error on. *)
Definition gateway_callback (c : Client) (reply : Settled jsval)
  : Client * Settled string :=
  match reply with
  | Rejected e => (c, Rejected e)
  | Resolved data =>
      match url_of data with
      | None => (c, Rejected TypeError)
      | Some url =>
          if truthy url then
            match url with
            | JStr s =>
                let g := gateway_of s (gatewayVersion c) in
                (mkClient (Some g) (gatewayVersion c), Resolved g)
            | _ => (c, Rejected TypeError)
            end
          else (c, Rejected InvalidGatewayResponse)
      end
  end.

(** What happens to a client: [getGateway] is called, or the request that
    is number [i] among those in flight settles. *)
Inductive Event : Type :=
| Call
| Reply (i : nat) (reply : Settled jsval).

(** A client with its calls of [getGateway]: the callers whose request is
    in flight, the number of calls made, the requests issued, and how the
    promise of each caller ended. *)
Record World : Type := mkWorld {
  client : Client;
  in_flight : list nat;
  calls : nat;
  requests : list Request;
  results : list (nat * Settled string);
}.

Definition start (c : Client) : World := mkWorld c [] 0 [] [].

Fixpoint without (i : nat) (l : list nat) : list nat :=
  match l, i with
  | [], _ => []
  | _ :: rest, O => rest
  | x :: rest, S j => x :: without j rest
  end.

Definition step (w : World) (ev : Event) : World :=
  match ev with
  | Call =>
      match cached (client w) with
      | Some url =>
          mkWorld (client w) (in_flight w) (S (calls w)) (requests w)
                  (results w ++ [(calls w, Resolved url)])
      | None =>
          mkWorld (client w) (in_flight w ++ [calls w]) (S (calls w))
                  (requests w ++ [gateway_request]) (results w)
      end
  | Reply i reply =>
      match nth_error (in_flight w) i with
      | None => w
      | Some caller =>
          let '(c', out) := gateway_callback (client w) reply in
          mkWorld c' (without i (in_flight w)) (calls w) (requests w)
                  (results w ++ [(caller, out)])
      end
  end.

Definition run (w : World) (evs : list Event) : World := fold_left step evs w.

(** Some call has resolved. *)
Definition resolved_once (w : World) : Prop :=
  exists k url, In (k, Resolved url) (results w).

(** A reply naming another gateway. *)
Definition hello_again : Settled jsval :=
  Resolved (JObj [("url", JStr "wss://gateway-2.discord.gg")]).

End Gateway.

(** ** [Client.deleteMessages] *)

Module BulkDelete.
Import JS Rest.

(** How the environment treats the n-th request of a run: time until the
    reply, the error if it fails, and how late the timer armed after it
    fires. *)
Record Reply : Type := mkReply {
  latency : N;
  failure : option Error;
  lateness : N;
}.

(** A request with the time it was handed to the request handler. *)
Record Sent : Type := mkSent {
  sent_at : Z;
  sent_req : Request;
}.

(** What a call leaves behind: the requests it caused, the settlement of
    the promise it returned, and the settlements of the promises of the
    calls it made from timers, which nobody holds. *)
Record Run : Type := mkRun {
  sent : list Sent;
  returned : Settled unit;
  detached : list (Settled unit);
}.

Definition settle (r : Reply) : Settled unit :=
  match failure r with
  | Some e => Rejected e
  | None => Resolved tt
  end.

Definition bulk_request (channelID : string) (ids : list string) : Request :=
  mkRequest "POST" (CHANNEL_BULK_DELETE channelID) true
            (JObj [("messages", JArr (List.map JStr ids))]) JUndefined.

(** [deleteMessage(channelID, messageID)] *)
Definition deleteMessage (channelID messageID : string) : Request :=
  mkRequest "DELETE" (CHANNEL_MESSAGE channelID messageID) true JUndefined JUndefined.

(** [deleteMessages(channelID, messageIDs)], called at [now] as the
    producer of request number [k] onwards.  [splice(0, 100)] takes the
    first hundred identifiers and leaves the others in the array the timer
    callback passes on. *)
Equations deleteMessages (env : nat -> Reply) (k : nat) (now : Z)
          (channelID : string) (messageIDs : list string) : Run
  by wf (length messageIDs) lt :=
deleteMessages env k now channelID [] := mkRun [] (Resolved tt) [];
deleteMessages env k now channelID [messageID] :=
  mkRun [mkSent now (deleteMessage channelID messageID)] (settle (env k)) [];
deleteMessages env k now channelID messageIDs with le_lt_dec (length messageIDs) 100 := {
  | left _ =>
      mkRun [mkSent now (bulk_request channelID messageIDs)] (settle (env k)) [];
  | right _ =>
      let first := mkSent now (bulk_request channelID (firstn 100 messageIDs)) in
      match failure (env k) with
      | Some e => mkRun [first] (Rejected e) []
      | None =>
          let later := now + Z.of_N (latency (env k)) + 1000 + Z.of_N (lateness (env k)) in
          let rest := deleteMessages env (S k) later channelID (skipn 100 messageIDs) in
          mkRun (first :: sent rest) (Resolved tt) (returned rest :: detached rest)
      end
  }.
Next Obligation.
  rewrite length_skipn. simpl in *. lia.
Qed.

Fixpoint strings_of (l : list jsval) : list string :=
  match l with
  | JStr s :: rest => s :: strings_of rest
  | _ :: rest => strings_of rest
  | [] => []
  end.

(** The message identifiers a delete request names. *)
Definition request_ids (r : Request) : list string :=
  match req_url r with
  | CHANNEL_MESSAGE _ messageID => [messageID]
  | CHANNEL_BULK_DELETE _ =>
      match req_body r with
      | JObj fields =>
          match assoc "messages" fields with
          | JArr l => strings_of l
          | _ => []
          end
      | _ => []
      end
  | _ => []
  end.

(** How many messages a request names. *)
Definition batch_size (s : Sent) : nat := length (request_ids (sent_req s)).

Definition is_bulk (r : Request) : bool :=
  match req_url r with
  | CHANNEL_BULK_DELETE _ => String.eqb (req_method r) "POST"
  | _ => false
  end.

(** A bulk request names two to a hundred messages; anything else is the
    deletion of a single message. *)
Definition request_shape (channelID : string) (s : Sent) : Prop :=
  if is_bulk (sent_req s)
  then (2 <= batch_size s <= 100)%nat
  else exists id, sent_req s = deleteMessage channelID id /\ batch_size s = 1%nat.

(** When the timer armed after request [k] fires. *)
Definition later (env : nat -> Reply) (k : nat) (now : Z) : Z :=
  now + Z.of_N (latency (env k)) + 1000 + Z.of_N (lateness (env k)).

Definition message_ids (n : nat) : list string :=
  List.map (fun i => string_of_Z (Z.of_nat i)) (seq 0 n).

Definition all_ok : nat -> Reply := fun _ => mkReply 30 None 2.

Definition first_fails : nat -> Reply :=
  fun k => if Nat.eqb k 0
           then mkReply 30 (Some (Failure (JStr "Internal Server Error"))) 2
           else mkReply 30 None 2.

Definition second_fails : nat -> Reply :=
  fun k => if Nat.eqb k 1
           then mkReply 30 (Some (Failure (JStr "Internal Server Error"))) 2
           else mkReply 30 None 2.

End BulkDelete.

(** ** Entities and the entity cache *)

Module Cache.
Import JS.

(** A gateway or REST object describing an entity: its id and its other
    properties. *)
Record Payload : Type := mkPayload {
  pl_id : string;
  pl_fields : list (string * jsval);
}.

(** [data.k] *)
Definition prop (k : string) (data : Payload) : jsval := assoc k (pl_fields data).

(** [data.k !== undefined ? data.k : old] *)
Definition defined_or (k : string) (data : Payload) (old : jsval) : jsval :=
  if is_undefined (prop k data) then old else prop k data.

(** What a collection needs of its base class: the constructor, [None]
    when it throws, and the [update] method. *)
Class EntityKind (E : Type) : Type := {
  construct : Payload -> option E;
  update : E -> Payload -> E;
}.

(** *** [GroupChannel] *)

Record GroupChannel : Type := mkGroupChannel {
  gc_id : string;
  gc_recipients : list jsval;
  gc_name : jsval;
  gc_ownerID : jsval;
  gc_icon : jsval;
}.

(** [GroupChannel.update(data)] *)
Definition GroupChannel_update (this : GroupChannel) (data : Payload) : GroupChannel :=
  {| gc_id := gc_id this;
     gc_recipients := gc_recipients this;
     gc_name := defined_or "name" data (gc_name this);
     gc_ownerID := defined_or "owner_id" data (gc_ownerID this);
     gc_icon := defined_or "icon" data (gc_icon this) |}.

(** The recipients [data.recipients.forEach] visits; [None] when the call
    throws, [data.recipients] being missing, null or no array. *)
Definition recipients_of (data : Payload) : option (list jsval) :=
  match prop "recipients" data with
  | JArr l => Some l
  | _ => None
  end.

(** The constructor: the id (set by the base class, outside the sources),
    the recipients, each handed to the user cache, then [update]. *)
Definition GroupChannel_new (data : Payload) : option GroupChannel :=
  match recipients_of data with
  | None => None
  | Some l =>
      Some (GroupChannel_update
              (mkGroupChannel (pl_id data) l JUndefined JUndefined JUndefined) data)
  end.

#[export] Instance GroupChannel_kind : EntityKind GroupChannel :=
  {| construct := GroupChannel_new; update := GroupChannel_update |}.

(** *** [Member] *)

Section MemberModel.

(** [Date.parse], the [VoiceState] class and the client's user cache live
    outside the sources: [users_get] is [client.users.get], and
    [users_add] what [client.users.add] returns. *)
Variable Date_parse : jsval -> jsval.
Variable VoiceState : Type.
Variable VoiceState_new : Payload -> VoiceState.
Variable VoiceState_update : VoiceState -> Payload -> VoiceState.
Variable User : Type.
Variable users_get : string -> option User.
Variable users_add : jsval -> User.

Record Member : Type := mkMember {
  m_id : string;
  m_user : User;
  m_status : jsval;
  m_game : jsval;
  m_joinedAt : jsval;
  m_voiceState : VoiceState;
  m_nick : jsval;
  m_roles : jsval;
}.

(** [Member.update(data)] *)
Definition Member_update (this : Member) (data : Payload) : Member :=
  {| m_id := m_id this;
     m_user := m_user this;
     m_status := if is_undefined (prop "status" data)
                 then or_else (m_status this) (JStr "offline")
                 else prop "status" data;
     m_game := if is_undefined (prop "game" data)
               then or_else (m_game this) JNull
               else prop "game" data;
     m_joinedAt := if is_undefined (prop "joined_at" data)
                   then m_joinedAt this
                   else Date_parse (prop "joined_at" data);
     m_voiceState := if is_undefined (prop "mute" data)
                     then m_voiceState this
                     else VoiceState_update (m_voiceState this) data;
     m_nick := if is_undefined (prop "nick" data)
               then or_else (m_nick this) JNull
               else prop "nick" data;
     m_roles := if is_undefined (prop "roles" data)
                then m_roles this
                else prop "roles" data |}.

(** [this.user]: the cached user, or else the one made of [data.user];
    [None] when there is neither. *)
Definition Member_user (data : Payload) : option User :=
  match users_get (pl_id data) with
  | Some u => Some u
  | None =>
      if truthy (prop "user" data) then Some (users_add (prop "user" data)) else None
  end.

(** The constructor; [None] when it throws "User associated with Member
    not found". *)
Definition Member_new (data : Payload) : option Member :=
  match Member_user data with
  | None => None
  | Some u =>
      Some (Member_update
              (mkMember (pl_id data) u JUndefined JUndefined JUndefined
                        (VoiceState_new data) JUndefined JUndefined)
              data)
  end.

Definition Member_kind : EntityKind Member :=
  {| construct := Member_new; update := Member_update |}.

End MemberModel.

Arguments mkMember {VoiceState User}.
Arguments m_id {VoiceState User}.
Arguments m_user {VoiceState User}.
Arguments m_status {VoiceState User}.
Arguments m_game {VoiceState User}.
Arguments m_joinedAt {VoiceState User}.
Arguments m_voiceState {VoiceState User}.
Arguments m_nick {VoiceState User}.
Arguments m_roles {VoiceState User}.

(** *** The collection *)

(** Entities are objects: the collection maps an id to a reference, and the
    store holds what each reference points to. *)
Record Collection (E : Type) : Type := mkCollection {
  index : gmap string nat;
  store : gmap nat E;
  next_ref : nat;
}.
Arguments mkCollection {E}.
Arguments index {E}.
Arguments store {E}.
Arguments next_ref {E}.

Definition empty_collection {E : Type} : Collection E := mkCollection ∅ ∅ 0%nat.

(** Modelled from the spec: [Collection.add] is not among the sources.
    Inserts when the id is absent, else merges the fields into the stored
    instance through the entity's [update] and returns that instance.
    Inserting constructs the entity; when the constructor throws, so does
    [add] ([None]), and nothing is stored. *)
Definition add {E : Type} {K : EntityKind E} (data : Payload) (c : Collection E)
  : option (Collection E * nat) :=
  match index c !! pl_id data with
  | Some r =>
      Some (mkCollection (index c) (alter (fun e => update e data) r (store c)) (next_ref c),
            r)
  | None =>
      match construct data with
      | Some e =>
          let r := next_ref c in
          Some (mkCollection (<[pl_id data := r]> (index c)) (<[r := e]> (store c)) (S r), r)
      | None => None
      end
  end.

(** [get(id)] *)
Definition get {E : Type} (id : string) (c : Collection E) : option E :=
  match index c !! id with
  | Some r => store c !! r
  | None => None
  end.

(** Every indexed reference is allocated and holds an entity. *)
Definition well_formed {E : Type} (c : Collection E) : Prop :=
  forall id r, index c !! id = Some r -> (r < next_ref c)%nat /\ is_Some (store c !! r).

(** [result] is [new] when that is defined, else [old]. *)
Definition merged (new old result : jsval) : Prop :=
  result = if is_undefined new then old else new.

(** [result] is [new] when that is defined, else [old] when that is truthy,
    else the default. *)
Definition merged_or (default new old result : jsval) : Prop :=
  result = if is_undefined new then (if truthy old then old else default) else new.

(** A member cache over an empty user cache, whose voice states and dates
    are left uninterpreted and whose users are their payloads. *)
Definition plain_members : EntityKind (@Member unit jsval) :=
  Member_kind (fun v => v) unit (fun _ => tt) (fun v _ => v)
              jsval (fun _ => None) (fun u => u).

Definition first_sight : Payload :=
  mkPayload "42" [("user", JObj [("id", JStr "42")]); ("nick", JStr "")].

Definition presence : Payload := mkPayload "42" [("status", JStr "online")].

(** A member nobody knows: no cached user, none in the payload. *)
Definition stranger : Payload := mkPayload "43" [("nick", JStr "x")].

End Cache.

(** ** Voice: [Client.getChannel] and [Client.joinVoiceChannel] *)

Module Voice.
Import JS Rest.

(** What [joinVoiceChannel] reads of a channel: whether it has a guild, and
    [permissionsOf(this.user.id).allow]. *)
Record Channel : Type := mkChannel {
  ch_id : string;
  ch_guild : option string;
  ch_allow : jsval;
}.

Inductive Phase : Type := Idle | Connecting | Ready | Disconnected.

Record VoiceConnection : Type := mkVoiceConnection {
  vc_key : string;
  vc_phase : Phase;
}.

Definition vc_ready (vc : VoiceConnection) : bool :=
  match vc_phase vc with Ready => true | _ => false end.

(** The voice connection manager: target key to connection object, the
    objects themselves, and the keys for which a handshake was started, in
    order (ghost state). *)
Record Manager : Type := mkManager {
  states : gmap string nat;
  conns : gmap nat VoiceConnection;
  next_handle : nat;
  handshakes : list string;
}.

Record Client : Type := mkClient {
  channelGuildMap : gmap string string;
  guilds : gmap string (gmap string Channel);
  privateChannels : gmap string Channel;
  groupChannels : gmap string Channel;
  voiceConnections : Manager;
}.

Definition set_voiceConnections (m : Manager) (c : Client) : Client :=
  {| channelGuildMap := channelGuildMap c; guilds := guilds c;
     privateChannels := privateChannels c; groupChannels := groupChannels c;
     voiceConnections := m |}.

Inductive Lookup : Type :=
| Thrown
| Missing
| Found (ch : Channel).

(** [this.channelGuildMap[channelID]], when it is a non-empty string. *)
Definition guild_of (c : Client) (channelID : string) : option string :=
  match channelGuildMap c !! channelID with
  | Some g => if String.eqb g "" then None else Some g
  | None => None
  end.

(** [getChannel(channelID)] *)
Definition getChannel (c : Client) (channelID : string) : Lookup :=
  match guild_of c channelID with
  | Some g =>
      match guilds c !! g with
      | None => Thrown
      | Some channels =>
          match channels !! channelID with
          | Some ch => Found ch
          | None => Missing
          end
      end
  | None =>
      match privateChannels c !! channelID with
      | Some ch => Found ch
      | None =>
          match groupChannels c !! channelID with
          | Some ch => Found ch
          | None => Missing
          end
      end
  end.

(** The key a connection is stored under: the guild id, or "call" for a
    group call. *)
Definition target_key (c : Client) (channelID : string) : string :=
  match guild_of c channelID with
  | Some g => g
  | None => "call"
  end.

Definition start_handshake (key : string) (m : Manager) : Manager * nat :=
  let h := next_handle m in
  (mkManager (<[key := h]> (states m))
             (<[h := mkVoiceConnection key Connecting]> (conns m))
             (S h)
             (handshakes m ++ [key]),
   h).

(** The handle stored under [key] when its connection is Ready or
    Connecting. *)
Definition live_handle (key : string) (m : Manager) : option nat :=
  match states m !! key with
  | Some h =>
      match conns m !! h with
      | Some vc =>
          match vc_phase vc with
          | Ready | Connecting => Some h
          | Idle | Disconnected => None
          end
      | None => None
      end
  | None => None
  end.

(** Modelled from the spec: [VoiceConnectionManager.join] is not among the
    sources.  A Ready state is returned as it is, a Connecting one as the
    same in-flight handle; otherwise a new state is created in Connecting
    and a handshake is started.  The left summand is what a throwing [join]
    would hand to the [catch] in [joinVoiceChannel]. *)
Definition manager_join (key : string) (m : Manager) : jsval + Manager * nat :=
  match live_handle key m with
  | Some h => inr (m, h)
  | None => inr (start_handshake key m)
  end.

(** [connection.ready] of the object behind handle [h]. *)
Definition connection_ready (m : Manager) (h : nat) : bool :=
  match conns m !! h with
  | Some vc => vc_ready vc
  | None => false
  end.

(** [v === false] *)
Definition strict_false (v : jsval) : bool :=
  match v with JBool false => true | _ => false end.

(** ToInt32 of a boolean. *)
Definition int_of_bool (b : bool) : Z := if b then 1 else 0.

(** What [joinVoiceChannel] returns, or that it throws. *)
Inductive JoinResult : Type :=
| Throws
| RejectedNow (e : Error)
| ResolvedNow (h : nat)
| Waits (h : nat).

(** The promise handed back for handle [h]: resolved at once when
    [waitForReady === false || connection.ready], else waiting for the
    connection's events. *)
Definition result_of (waitForReady : jsval) (m : Manager) (h : nat) : JoinResult :=
  if strict_false waitForReady || connection_ready m h then ResolvedNow h else Waits h.

Section Join.

(** [Constants.Permissions.voiceConnect], as a 32-bit integer. *)
Variable voiceConnect : Z.

(** [!channel.permissionsOf(this.user.id).allow & Constants.Permissions.voiceConnect]:
    the negation applies to [allow], the conjunction to its result. *)
Definition permission_guard (allow : jsval) : Z :=
  Z.land (int_of_bool (negb (truthy allow))) voiceConnect.

(** [channel.guild && !... & ...] as a condition. *)
Definition permission_denied (ch : Channel) : bool :=
  match ch_guild ch with
  | Some _ => negb (permission_guard (ch_allow ch) =? 0)
  | None => false
  end.

(** [joinVoiceChannel(channelID, waitForReady)] *)
Definition joinVoiceChannel (c : Client) (channelID : string) (waitForReady : jsval)
  : Client * JoinResult :=
  match getChannel c channelID with
  | Thrown => (c, Throws)
  | Missing => (c, RejectedNow ChannelNotFound)
  | Found channel =>
      if permission_denied channel then (c, RejectedNow InsufficientPermission)
      else
        match manager_join (target_key c channelID) (voiceConnections c) with
        | inl err => (c, RejectedNow (Failure err))
        | inr (m, h) =>
            let c' := set_voiceConnections m c in
            (c', result_of waitForReady m h)
        end
  end.

End Join.





(** A guild voice channel in which the bot user is allowed nothing. *)
Definition guild_channel : Channel := mkChannel "c1" (Some "g1") (JNum 0).

Definition sample_client : Client :=
  mkClient {[ "c1" := "g1" ]} {[ "g1" := {[ "c1" := guild_channel ]} ]} ∅ ∅
           (mkManager ∅ ∅ 0 []).


End Voice.

(** ** [Client.createMessage] *)

Module Messages.
Import JS Rest.

(** Zero width space, U+200B. *)
Definition zwsp : string :=
  String (ascii_of_nat 226) (String (ascii_of_nat 128) (String (ascii_of_nat 139) "")).

(** [s.replace(/needle/g, by)] for a literal, non-empty needle.  [skip]
    counts the characters of a match still to be passed over. *)
Fixpoint replace_from (needle by_ : string) (skip : nat) (s : string) : string :=
  match s with
  | EmptyString => EmptyString
  | String ch rest =>
      match skip with
      | S k => replace_from needle by_ k rest
      | O =>
          if String.prefix needle s
          then (by_ ++ replace_from needle by_ (String.length needle - 1) rest)%string
          else String ch (replace_from needle by_ 0 rest)
      end
  end.

Definition replace_all (needle by_ s : string) : string := replace_from needle by_ 0 s.

Definition mask_mentions (s : string) : string :=
  replace_all "@here" ("@" ++ zwsp ++ "here")
    (replace_all "@everyone" ("@" ++ zwsp ++ "everyone") s).

(** The first statement of [createMessage]: bring [content] to an object
    with a string [content] property.  [None] when reading [content.content]
    throws, which it does on null. *)
Definition normalize (content : jsval) : option (list (string * jsval)) :=
  if String.eqb (typeof content) "string" then Some [("content", content)]
  else
    match content with
    | JNull => None
    | JObj fields =>
        if is_undefined (assoc "content" fields)
        then Some [("content", JStr (toString content))]
        else if negb (String.eqb (typeof (assoc "content" fields)) "string")
        then Some (assoc_set "content"
                     (JStr (toString (or_else (assoc "content" fields) (JStr "")))) fields)
        else Some fields
    | _ => Some [("content", JStr (toString content))]
    end.

(** The string held by [content.content] after normalisation. *)
Definition content_string (fields : list (string * jsval)) : string :=
  match assoc "content" fields with
  | JStr s => s
  | _ => ""
  end.

Inductive Outcome : Type :=
| Throws (e : Error)
| Rejects (e : Error)
| Requests (r : Request).

(** [createMessage(channelID, content, file)]; [disableEveryone] is
    [this.options.disableEveryone]. *)
Definition createMessage (disableEveryone : jsval) (channelID : string)
           (content file : jsval) : Outcome :=
  match normalize content with
  | None => Throws TypeError
  | Some fields =>
      if negb (truthy (assoc "content" fields)) && negb (truthy file)
      then Rejects NoContentOrFile
      else
        let chosen := if negb (is_undefined (assoc "disableEveryone" fields))
                      then assoc "disableEveryone" fields
                      else disableEveryone in
        let fields' := if truthy chosen
                       then assoc_set "content"
                              (JStr (mask_mentions (content_string fields))) fields
                       else fields in
        Requests (mkRequest "POST" (CHANNEL_MESSAGES channelID) true (JObj fields') file)
  end.

(** The REST requests a call issues. *)
Definition requests_of (o : Outcome) : list Request :=
  match o with
  | Requests r => [r]
  | Throws _ | Rejects _ => []
  end.

End Messages.

(** ** Tearing the sequencer down: [Client.disconnect] *)

Module Teardown.
Import Sequencer.

Section Disconnect.

(** What [this.shards.forEach((shard) => shard.disconnect(options))] does
    to the client; [Shard.disconnect] is outside the sources. *)
Variable shards_disconnect : Client -> Client.

(** [disconnect(options)], on the fields of the sequencer: the shards are
    told to disconnect, then the pending list is dropped. *)
Definition disconnect (c : Client) : Client :=
  set_connectQueue [] (shards_disconnect c).

End Disconnect.

Definition is_connect (e : Event) : bool :=
  match e with Connect _ => true | _ => false end.

(** The events through which a connection is asked for. *)
Definition requests_connection (e : Event) : bool :=
  match e with Connect _ | QueueConnect _ _ => true | _ => false end.

(** [Date.now()] at an event, for the events that read the clock. *)
Definition event_time (e : Event) : option Z :=
  match e with
  | Connect now | QueueConnect now _ | TimerFired now | ShardReady now _ => Some now
  | ShardSettled _ => None
  end.

(** The clock never runs backwards along a run started at [t]. *)
Fixpoint chronological (t : Z) (evs : list Event) : bool :=
  match evs with
  | [] => true
  | e :: rest =>
      match event_time e with
      | Some now => (t <=? now) && chronological now rest
      | None => chronological t rest
      end
  end.

(** When the timer callback called [connect()]. *)
Definition timer_times (c : Client) : list Z :=
  List.map adm_time (List.filter is_timer (admitLog c)).

(** What a run started at or before [t] keeps true of the timer
    admissions: they lie 250 ms apart, in the past, and 250 ms before the
    pending timer is due. *)
Definition paced (t : Z) (c : Client) : Prop :=
  spaced 250 (timer_times c) = true
  /\ Forall (fun a => a <= t) (timer_times c)
  /\ forall due, connectTimeout c = Some due ->
                 Forall (fun a => a + 250 <= due) (timer_times c).

(** The ids [Client.connect] walks through. *)
Definition configured_ids (c : Client) : list nat :=
  seq (firstShardID c) (S (lastShardID c) - firstShardID c).

(** Pending shards are never left without a timer. *)
Definition attended (c : Client) : Prop :=
  connectQueue c = [] \/ is_Some (connectTimeout c).

End Teardown.

(** ** [Client.editMessage], and mentions in outgoing text *)

Module Editing.
Import JS Rest Messages.

(** [needle] occurs somewhere in [s]. *)
Fixpoint occurs (needle s : string) : bool :=
  String.prefix needle s
  || match s with
     | EmptyString => false
     | String _ rest => occurs needle rest
     end.

(** [own !== undefined ? own : this.options.disableEveryone], as a
    condition: whether mentions of everyone are to be masked. *)
Definition masking (disableEveryone own : jsval) : bool :=
  truthy (if negb (is_undefined own) then own else disableEveryone).

(** The string [editMessage] makes of [content]: null and undefined through
    ["" + content], other values that are not strings through
    [toString()]. *)
Definition edited_text (content : jsval) : string :=
  match content with
  | JStr s => s
  | _ => toString content
  end.

(** [editMessage(channelID, messageID, content, disableEveryone)]; the
    first argument is [this.options.disableEveryone].  The call always hands
    a request to the request handler. *)
Definition editMessage (optDisableEveryone : jsval) (channelID messageID : string)
           (content disableEveryone : jsval) : Request :=
  let text := edited_text content in
  let text' := if masking optDisableEveryone disableEveryone
               then mask_mentions text
               else text in
  mkRequest "PATCH" (CHANNEL_MESSAGE channelID messageID) true
            (JObj [("content", JStr text')]) JUndefined.

(** The text a request carries in the [content] property of its body. *)
Definition body_text (r : Request) : option string :=
  match req_body r with
  | JObj fields =>
      match assoc "content" fields with
      | JStr s => Some s
      | _ => None
      end
  | _ => None
  end.

End Editing.

(** ** [Member.permission] *)

Module Permissions.

(** ToInt32: the operand conversion of the bitwise operators. *)
Definition toInt32 (z : Z) : Z := (z + 2 ^ 31) mod 2 ^ 32 - 2 ^ 31.

(** [a | b] and [a & b]: the operands are taken as 32-bit integers, and
    so is the result. *)
Definition bit_or (a b : Z) : Z := toInt32 (Z.lor (toInt32 a) (toInt32 b)).
Definition bit_and (a b : Z) : Z := toInt32 (Z.land (toInt32 a) (toInt32 b)).

(** What the getter reads of a guild: its id, its owner, and
    [role.permissions.allow] for each of its roles. *)
Record Guild : Type := mkGuild {
  guild_id : string;
  ownerID : string;
  roles : gmap string Z;
}.

Record Member : Type := mkMember {
  member_id : string;
  member_roles : list string;
}.

Section Getter.

(** [Constants.Permissions.all] and [Constants.Permissions.administrator] *)
Variable all administrator : Z.

(** The loop over [this.roles]: [None] when a role is not in the guild,
    which makes [guild.roles.get(role).permissions] throw. *)
Fixpoint accumulate (g : Guild) (permissions : Z) (rs : list string) : option Z :=
  match rs with
  | [] => Some permissions
  | role :: rest =>
      match roles g !! role with
      | None => None
      | Some perm =>
          if negb (bit_and perm administrator =? 0)
          then Some all
          else accumulate g (bit_or permissions perm) rest
      end
  end.

(** The [permission] getter, as the number handed to [new Permission];
    [None] when it throws. *)
Definition permission (g : Guild) (m : Member) : option Z :=
  if String.eqb (member_id m) (ownerID g) then Some all
  else
    match roles g !! guild_id g with
    | None => None
    | Some everyone => accumulate g everyone (member_roles m)
    end.

End Getter.

(** [role.permissions.allow] of the roles named, 0 standing in for a role
    the guild does not have. *)
Definition allow_of (g : Guild) (role : string) : Z := default 0 (roles g !! role).

Definition allowed (g : Guild) (rs : list string) : list Z := List.map (allow_of g) rs.

(** [perm & Permissions.administrator], as a condition. *)
Definition is_admin (administrator perm : Z) : bool :=
  negb (bit_and perm administrator =? 0).

(** Bit [n] of [a] is also set in [b], for the 32 bits the operators keep. *)
Definition included (a b : Z) : Prop :=
  forall n, 0 <= n < 32 -> Z.testbit a n = true -> Z.testbit b n = true.

Definition sample_guild : Guild :=
  mkGuild "g1" "u0" {[ "g1" := 1024; "r1" := 2048; "r2" := 3 ]}.

End Permissions.

(** ** [Client.editRolePosition] and [Client.editChannelPosition] *)

Module Positions.
Import JS.

(** [a === b] on plain data; two objects read from different places are
    different objects. *)
Definition strict_eq (a b : jsval) : bool :=
  match a, b with
  | JUndefined, JUndefined | JNull, JNull => true
  | JBool x, JBool y => Bool.eqb x y
  | JNum x, JNum y => x =? y
  | JStr x, JStr y => String.eqb x y
  | _, _ => false
  end.

Record Role : Type := mkRole {
  role_id : string;
  role_position : Z;
}.

Record Channel : Type := mkChannel {
  chan_id : string;
  chan_position : Z;
  chan_type : jsval;
}.

Inductive Route : Type :=
| GUILD_ROLES (guildID : string)
| GUILD_CHANNELS (guildID : string).

(** A PATCH whose body is an array of [{id, position}] objects. *)
Record Patch : Type := mkPatch {
  patch_route : Route;
  patch_body : list (string * Z);
}.

Inductive PositionError : Type :=
| CannotMoveDefaultRole
| RoleNotFound (roleID : string)
| ChannelNotFound (channelID : string).

Inductive Outcome : Type :=
| Throws
| Rejects (e : PositionError)
| Resolves
| Requests (r : Patch).

Section Reorder.

Context {A : Type}.
Variable ident : A -> string.
Variable pos : A -> Z.

(** [sort((a, b) => a.position - b.position)], equal positions keeping
    their order. *)
Fixpoint insert_sorted (x : A) (l : list A) : list A :=
  match l with
  | [] => [x]
  | y :: rest => if pos x <=? pos y then x :: y :: rest else y :: insert_sorted x rest
  end.

Fixpoint sort_by_position (l : list A) : list A :=
  match l with
  | [] => []
  | x :: rest => insert_sorted x (sort_by_position rest)
  end.

(** Positions never decrease along the list. *)
Fixpoint ascending (l : list A) : Prop :=
  match l with
  | [] => True
  | x :: rest => Forall (fun y => pos x <= pos y) rest /\ ascending rest
  end.

(** [push] the moved item when it goes up, [unshift] it when it goes
    down. *)
Definition with_moved (position : Z) (moved : A) (others : list A) : list A :=
  if position >? pos moved then others ++ [moved] else moved :: others.

(** [map((item, index) => ({id: item.id, position: index + min}))] *)
Definition renumber (min : Z) (l : list A) : list (string * Z) :=
  imap (fun index x => (ident x, Z.of_nat index + min)) l.

(** Where the request puts an item: the moved one at [position], the
    others one place towards the slot it leaves. *)
Definition target (movedID : string) (old position : Z) (x : A) : Z :=
  if String.eqb (ident x) movedID then position
  else if position >? old then pos x - 1 else pos x + 1.

End Reorder.

(** [editRolePosition(guildID, roleID, position)], over the roles of the
    cached guilds. *)
Definition editRolePosition (guilds : gmap string (list Role))
           (guildID roleID : string) (position : Z) : Outcome :=
  if String.eqb guildID roleID then Rejects CannotMoveDefaultRole
  else
    match guilds !! guildID with
    | None => Throws
    | Some roles =>
        match List.find (fun r => String.eqb (role_id r) roleID) roles with
        | None => Rejects (RoleNotFound roleID)
        | Some role =>
            if role_position role =? position then Resolves
            else
              let min := Z.min position (role_position role) in
              let max := Z.max position (role_position role) in
              let others :=
                sort_by_position role_position
                  (List.filter
                     (fun r => (min <=? role_position r) && (role_position r <=? max)
                               && negb (String.eqb (role_id r) roleID))
                     roles) in
              Requests (mkPatch (GUILD_ROLES guildID)
                          (renumber role_id min
                             (with_moved role_position position role others)))
        end
    end.

(** [editChannelPosition(channelID, position)], over [channelGuildMap] and
    the channels of the cached guilds. *)
Definition editChannelPosition (channelGuildMap : gmap string string)
           (guilds : gmap string (list Channel))
           (channelID : string) (position : Z) : Outcome :=
  match channelGuildMap !! channelID with
  | None => Throws
  | Some guildID =>
      match guilds !! guildID with
      | None => Throws
      | Some channels =>
          match List.find (fun c => String.eqb (chan_id c) channelID) channels with
          | None => Rejects (ChannelNotFound channelID)
          | Some channel =>
              if chan_position channel =? position then Resolves
              else
                let min := Z.min position (chan_position channel) in
                let max := Z.max position (chan_position channel) in
                let others :=
                  sort_by_position chan_position
                    (List.filter
                       (fun c => strict_eq (chan_type c) (chan_type channel)
                                 && (min <=? chan_position c) && (chan_position c <=? max)
                                 && negb (String.eqb (chan_id c) channelID))
                       channels) in
                Requests (mkPatch (GUILD_CHANNELS guildID)
                            (renumber chan_id min
                               (with_moved chan_position position channel others)))
          end
      end
  end.

(** Five roles of guild "g", the default role lowest. *)
Definition sample_roles : list Role :=
  [mkRole "g" 0; mkRole "a" 1; mkRole "b" 2; mkRole "c" 3; mkRole "d" 4].

(** Text channels 0 to 2 and voice channels 0 and 1 of guild "g". *)
Definition sample_channels : list Channel :=
  [mkChannel "t0" 0 (JNum 0); mkChannel "v0" 0 (JNum 2); mkChannel "t1" 1 (JNum 0);
   mkChannel "v1" 1 (JNum 2); mkChannel "t2" 2 (JNum 0)].

(** The integers from [lo], [n] of them. *)
Definition consecutive (lo : Z) (n : nat) : list Z :=
  List.map (fun i => lo + Z.of_nat i) (seq 0 n).

End Positions.

(** ** [Client.getMessages] *)

Module History.
Import JS Rest.

(** The query of one GET on a channel's messages. *)
Record Query : Type := mkQuery {
  q_limit : Z;
  q_before : jsval;
  q_after : jsval;
  q_around : jsval;
}.

(** A message object of a reply, by its properties. *)
Definition RawMessage : Type := list (string * jsval).

(** [cursor || undefined] *)
Definition or_undefined (cursor : jsval) : jsval :=
  if truthy cursor then cursor else JUndefined.

(** [messages[0].id] and [messages[messages.length - 1].id] *)
Definition first_id (messages : list RawMessage) : jsval :=
  match messages with
  | m :: _ => assoc "id" m
  | [] => JUndefined
  end.

Definition last_id (messages : list RawMessage) : jsval :=
  match List.last (List.map Some messages) None with
  | Some m => assoc "id" m
  | None => JUndefined
  end.

Section GetMessages.

(** The [Message] class is outside the sources. *)
Variable Message : Type.
Variable newMessage : RawMessage -> Message.

(** What a call leaves behind: the queries sent, and how the promise
    ends. *)
Record Run : Type := mkRun {
  queries : list Query;
  result : Settled (list Message);
}.

(** The inner function [get(_before, _after)] of the branch for more than a
    hundred messages, as the sender of query number [k] onwards; [env] tells
    how each query is answered.  [limit] and [logs] are the variables the
    callbacks share. *)
Equations get (env : nat -> Error + list RawMessage) (k : nat) (limit : Z)
          (logs : list Message) (_before _after : jsval) : Run
  by wf (Z.to_nat limit) lt :=
get env k limit logs _before _after with env k := {
  | inl err =>
      mkRun [mkQuery 100 (or_undefined _before) (or_undefined _after) JUndefined]
            (Rejected err);
  | inr messages with Z_le_gt_dec limit (Z.of_nat (length messages)) := {
    | left _ =>
        mkRun [mkQuery 100 (or_undefined _before) (or_undefined _after) JUndefined]
              (Resolved
                 (if truthy _after
                  then List.map newMessage
                         (skipn (length messages - Z.to_nat limit) messages) ++ logs
                  else logs ++ List.map newMessage (firstn (Z.to_nat limit) messages)));
    | right _ with lt_dec (length messages) 100 := {
      | left _ =>
          mkRun [mkQuery 100 (or_undefined _before) (or_undefined _after) JUndefined]
                (Resolved
                   (if truthy _after
                    then List.map newMessage messages ++ logs
                    else logs ++ List.map newMessage messages));
      | right _ =>
          let rest :=
            get env (S k) (limit - Z.of_nat (length messages))
                (if truthy _after
                 then List.map newMessage messages ++ logs
                 else logs ++ List.map newMessage messages)
                (if truthy _before || negb (truthy _after)
                 then last_id messages
                 else JBool false)
                (if truthy _after then first_id messages else _after) in
          mkRun (mkQuery 100 (or_undefined _before) (or_undefined _after) JUndefined
                   :: queries rest)
                (result rest)
      }
    }
  }.
Next Obligation.
  lia.
Qed.

(** The branch for at most a hundred messages: one query, the reply mapped
    to messages.  The source puts [null] where [new Message] throws;
    [newMessage] is total here, so that case does not arise. *)
Definition get_once (env : nat -> Error + list RawMessage) (q : Query) : Run :=
  match env 0%nat with
  | inl err => mkRun [q] (Rejected err)
  | inr messages => mkRun [q] (Resolved (List.map newMessage messages))
  end.

(** [getMessages(channelID, limit, before, after, around)]; [limit] is
    [None] when the argument is left out. *)
Definition getMessages (env : nat -> Error + list RawMessage) (limit : option Z)
           (before after around : jsval) : Run :=
  match limit with
  | Some n =>
      if negb (n =? 0) && (n >? 100)
      then get env 0 n [] before after
      else get_once env (mkQuery (if n =? 0 then 50 else n) before after around)
  | None => get_once env (mkQuery 50 before after around)
  end.

End GetMessages.

Arguments queries {Message}.
Arguments result {Message}.

(** The messages of the first [m] replies of a run, failed queries counting
    for none. *)
Fixpoint replies (env : nat -> Error + list RawMessage) (k m : nat) : list RawMessage :=
  match m with
  | O => []
  | S m' =>
      match env k with
      | inr messages => messages ++ replies env (S k) m'
      | inl _ => replies env (S k) m'
      end
  end.

(** The same replies as [getMessages] stacks them when it pages forwards:
    each reply in front of the earlier ones. *)
Fixpoint replies_stacked (env : nat -> Error + list RawMessage) (k m : nat)
  : list RawMessage :=
  match m with
  | O => []
  | S m' =>
      match env k with
      | inr messages => replies_stacked env (S k) m' ++ messages
      | inl _ => replies_stacked env (S k) m'
      end
  end.

(** Every message of every reply carries a truthy id. *)
Definition with_ids (env : nat -> Error + list RawMessage) : Prop :=
  forall k messages, env k = inr messages ->
    Forall (fun m => truthy (assoc "id" m) = true) messages.

(** A reply of [n] messages, whose ids count up from [from]. *)
Definition page (from n : nat) : list RawMessage :=
  List.map (fun i => [("id", JStr (string_of_Z (Z.of_nat i)))]) (seq from n).

(** A channel that answers two full pages and then a page of 30. *)
Definition three_pages (k : nat) : Error + list RawMessage :=
  match k with
  | 0%nat => inr (page 0 100)
  | 1%nat => inr (page 100 100)
  | _ => inr (page 200 30)
  end.

End History.

(** * Properties *)

(** ** The connect sequencer *)

Section SequencerFacts.
Import Sequencer.

Lemma ids_set_flag b i l : shard_ids (set_flag b i l) = shard_ids l.
Proof.
  unfold shard_ids, set_flag. rewrite List.map_map. apply List.map_ext.
  intros s. destruct (Nat.eqb (shard_id s) i); reflexivity.
Qed.

Lemma count_clear i l : (connecting_in (set_flag false i l) <= connecting_in l)%nat.
Proof.
  unfold connecting_in. induction l as [|s l IH]; simpl; [lia|].
  destruct (Nat.eqb (shard_id s) i); simpl; destruct (connecting s); simpl; lia.
Qed.

Lemma find_connecting_none l : find_connecting l = None -> connecting_in l = 0%nat.
Proof.
  unfold find_connecting, connecting_in. induction l as [|s l IH]; simpl; [reflexivity|].
  destruct (connecting s); [discriminate|]. exact IH.
Qed.

Lemma count_set_absent i l :
  ~ List.In i (shard_ids l) -> connecting_in (set_flag true i l) = connecting_in l.
Proof.
  unfold connecting_in. induction l as [|s l IH]; simpl; [reflexivity|].
  intros Hn. destruct (Nat.eqb_spec (shard_id s) i) as [E|E].
  - exfalso. apply Hn. left. exact E.
  - assert (IH' := IH (fun H => Hn (or_intror H))).
    destruct (connecting s); simpl; rewrite IH'; reflexivity.
Qed.

Lemma count_set_quiet i l :
  List.NoDup (shard_ids l) -> connecting_in l = 0%nat -> (connecting_in (set_flag true i l) <= 1)%nat.
Proof.
  unfold connecting_in. induction l as [|s l IH]; simpl; [lia|].
  intros Hnd H0. inversion Hnd as [|? ? Hni Hnd']; subst.
  destruct (connecting s) eqn:Ec; simpl in H0; [discriminate|].
  destruct (Nat.eqb_spec (shard_id s) i) as [E|E]; simpl.
  - subst i. pose proof (count_set_absent (shard_id s) l Hni) as Ha.
    unfold connecting_in in Ha. rewrite Ha, H0. lia.
  - rewrite Ec. apply IH; assumption.
Qed.

Lemma may_admit_quiet now c : may_admit now c = true -> find_connecting (shards c) = None.
Proof.
  unfold may_admit. intros H. apply andb_true_iff in H as [_ H].
  apply negb_true_iff, bool_decide_eq_false in H.
  destruct (find_connecting (shards c)); [|reflexivity].
  exfalso. apply H. eexists. reflexivity.
Qed.

Lemma may_admit_stamp now c : may_admit now c = true -> lastReadyPacket c <= now - 5250.
Proof.
  unfold may_admit. intros H. apply andb_true_iff in H as [H _]. lia.
Qed.

Lemma inv_queueConnect now i c : inv c -> inv (queueConnect now i c).
Proof.
  intros [Hnd Hc]. unfold queueConnect.
  destruct (may_admit now c) eqn:Ea.
  - split; simpl; [rewrite ids_set_flag; exact Hnd|].
    apply count_set_quiet; [exact Hnd|].
    apply find_connecting_none, (may_admit_quiet now), Ea.
  - unfold tryConnect; simpl. destruct (connectTimeout c); split; simpl; assumption.
Qed.

Lemma inv_timeout_callback now c : inv c -> inv (timeout_callback now c).
Proof.
  intros [Hnd Hc]. unfold timeout_callback.
  destruct ((0 <? length (connectQueue c))%nat && may_admit now c) eqn:Eg.
  - apply andb_true_iff in Eg as [_ Ea].
    destruct (connectQueue c) as [|head rest] eqn:Eq.
    + simpl. rewrite Eq. simpl. split; assumption.
    + assert (Hq : find_connecting (shards c) = None) by exact (may_admit_quiet now c Ea).
      assert (Hs : (connecting_in (set_flag true head (shards c)) <= 1)%nat)
        by (apply count_set_quiet; [exact Hnd | apply find_connecting_none, Hq]).
      simpl. destruct (0 <? length rest)%nat; unfold tryConnect; simpl;
        split; simpl; try (rewrite ids_set_flag); assumption.
  - simpl. destruct (0 <? length (connectQueue c))%nat; unfold tryConnect; simpl;
      [destruct (connectTimeout c)|]; split; simpl; assumption.
Qed.

Lemma shards_get_none i l : shards_get i l = None -> ~ List.In i (shard_ids l).
Proof.
  unfold shards_get, shard_ids. induction l as [|s l IH]; simpl; [tauto|].
  destruct (Nat.eqb_spec (shard_id s) i) as [E|E]; [discriminate|].
  intros H [H1|H1]; [contradiction | exact (IH H H1)].
Qed.

Lemma inv_connect_shard now c i : inv c -> inv (connect_shard now c i).
Proof.
  intros [Hnd Hc]. unfold connect_shard. apply inv_queueConnect.
  destruct (shards_get i (shards c)) eqn:Eg; [split; assumption|].
  split; simpl.
  - unfold shard_ids. rewrite List.map_app. simpl.
    apply List.NoDup_app; repeat split.
    + exact Hnd.
    + constructor; [simpl; tauto | constructor].
    + intros x Hx [E|[]]. subst x. exact (shards_get_none i _ Eg Hx).
  - unfold connecting_count, connecting_in in *. simpl.
    rewrite List.filter_app, List.length_app. simpl. lia.
Qed.

Lemma inv_fold_connect now l : forall c, inv c -> inv (fold_left (connect_shard now) l c).
Proof.
  induction l as [|i l IH]; simpl; intros c H; [exact H|].
  apply IH, inv_connect_shard, H.
Qed.

Lemma inv_clear i c : inv c -> inv (set_shards (set_flag false i (shards c)) c).
Proof.
  intros [Hnd Hc]. split; simpl.
  - rewrite ids_set_flag. exact Hnd.
  - unfold connecting_count in *. simpl.
    pose proof (count_clear i (shards c)) as H. lia.
Qed.

Lemma inv_step c e : inv c -> inv (step c e).
Proof.
  intros H. destruct e as [now|now i|now|i|now i]; simpl.
  - apply inv_fold_connect, H.
  - destruct (shards_get i (shards c)); [apply inv_queueConnect|]; exact H.
  - destruct (connectTimeout c) as [due|]; [|exact H].
    destruct (due <=? now); [apply inv_timeout_callback|]; exact H.
  - apply inv_clear, H.
  - destruct (inv_clear i c H) as [H1 H2]. split; assumption.
Qed.

Lemma inv_run evs : forall c, inv c -> inv (run c evs).
Proof.
  induction evs as [|e evs IH]; simpl; intros c H; [exact H|].
  apply IH, inv_step, H.
Qed.

Lemma inv_newClient first last : inv (newClient first last).
Proof.
  split; [apply List.NoDup_nil|].
  unfold connecting_count, connecting_in. simpl. lia.
Qed.

Lemma admitLog_tryConnect now c : admitLog (tryConnect now c) = admitLog c.
Proof. unfold tryConnect. destruct (connectTimeout c); reflexivity. Qed.

Lemma queueConnect_admits now i c :
  admitLog (queueConnect now i c) <> admitLog c -> may_admit now c = true.
Proof.
  unfold queueConnect. destruct (may_admit now c); [reflexivity|].
  rewrite admitLog_tryConnect. simpl. congruence.
Qed.

Lemma timeout_callback_admits now c :
  admitLog (timeout_callback now c) <> admitLog c ->
  may_admit now c = true /\ exists head rest, connectQueue c = head :: rest.
Proof.
  unfold timeout_callback.
  destruct ((0 <? length (connectQueue c))%nat && may_admit now c) eqn:Eg.
  - apply andb_true_iff in Eg as [_ Ea]. intros H. split; [exact Ea|].
    destruct (connectQueue c) as [|head rest] eqn:Eq; [|eauto].
    exfalso. apply H. simpl. rewrite Eq. reflexivity.
  - intros H. exfalso. apply H.
    destruct (0 <? length (connectQueue (set_connectTimeout None c)))%nat;
      [rewrite admitLog_tryConnect|]; reflexivity.
Qed.

(** Claim C1.  In every state a client reaches from its constructor through
    [connect], [queueConnect], the [tryConnect] timer and shards leaving the
    Connecting phase, at most one shard of the collection is connecting; and
    both [queueConnect] and the timer callback call [connect()] only in a
    state where no shard of the collection has its [connecting] flag set. *)
Theorem connecting_at_most_one :
  (forall first last evs, (connecting_count (run (newClient first last) evs) <= 1)%nat)
  /\ (forall now i c, admitLog (queueConnect now i c) <> admitLog c ->
        find_connecting (shards c) = None)
  /\ (forall now c, admitLog (timeout_callback now c) <> admitLog c ->
        find_connecting (shards c) = None).
Proof.
  split; [|split].
  - intros first last evs. apply (inv_run evs), inv_newClient.
  - intros now i c H. apply (may_admit_quiet now), (queueConnect_admits now i), H.
  - intros now c H. apply (may_admit_quiet now), (timeout_callback_admits now c H).
Qed.

(** The claim on a run of three shards, and the guard at the two admissions
    of that run. *)
Lemma connecting_at_most_one_witness :
  (connecting_count (run (newClient 0 2) sample_trace) <= 1)%nat
  /\ find_connecting (shards (newClient 0 2)) = None
  /\ find_connecting (shards (run (newClient 0 2) [Connect 10000; ShardSettled 0])) = None.
Proof.
  destruct connecting_at_most_one as (H1 & H2 & H3).
  split; [apply H1|split].
  - apply (H2 10000 0%nat). vm_compute. discriminate.
  - apply (H3 14750). vm_compute. discriminate.
Defined.

Lemma lastReadyPacket_tryConnect now c : lastReadyPacket (tryConnect now c) = lastReadyPacket c.
Proof. unfold tryConnect. destruct (connectTimeout c); reflexivity. Qed.

Lemma connectQueue_tryConnect now c : connectQueue (tryConnect now c) = connectQueue c.
Proof. unfold tryConnect. destruct (connectTimeout c); reflexivity. Qed.

Lemma requestLog_tryConnect now c : requestLog (tryConnect now c) = requestLog c.
Proof. unfold tryConnect. destruct (connectTimeout c); reflexivity. Qed.

(** Claim C3, in the form the code supports.  An admission, by the bypass
    in [queueConnect] or by the timer callback, happens only when
    [lastReadyPacket] lies at least 5250 ms before the current time.  The
    bypass leaves [lastReadyPacket] as it was; the timer callback advances it
    by 5250.  Neither stores the time of the admission. *)
Theorem admission_waits_for_stamp (now : Z) (c : Client) :
  (forall i, admitLog (queueConnect now i c) <> admitLog c ->
     lastReadyPacket c <= now - 5250
     /\ find_connecting (shards c) = None
     /\ admitLog (queueConnect now i c) = admitLog c ++ [mkAdmission i now Bypass]
     /\ lastReadyPacket (queueConnect now i c) = lastReadyPacket c)
  /\ (admitLog (timeout_callback now c) <> admitLog c ->
     exists head rest,
       connectQueue c = head :: rest
       /\ lastReadyPacket c <= now - 5250
       /\ find_connecting (shards c) = None
       /\ admitLog (timeout_callback now c) = admitLog c ++ [mkAdmission head now Timer]
       /\ lastReadyPacket (timeout_callback now c) = lastReadyPacket c + 5250).
Proof.
  split.
  - intros i H. pose proof (queueConnect_admits now i c H) as Ea.
    split; [exact (may_admit_stamp now c Ea)|].
    split; [exact (may_admit_quiet now c Ea)|].
    unfold queueConnect. rewrite Ea. split; reflexivity.
  - intros H. destruct (timeout_callback_admits now c H) as (Ea & head & rest & Eq).
    exists head, rest. split; [exact Eq|]. split; [exact (may_admit_stamp now c Ea)|].
    split; [exact (may_admit_quiet now c Ea)|].
    unfold timeout_callback. rewrite Eq, Ea. simpl.
    destruct (0 <? length rest)%nat;
      rewrite ?admitLog_tryConnect, ?lastReadyPacket_tryConnect; split; reflexivity.
Qed.

(** Both admission paths on concrete clients. *)
Lemma admission_waits_for_stamp_witness :
  (lastReadyPacket (newClient 0 0) <= 10000 - 5250
   /\ find_connecting (shards (newClient 0 0)) = None
   /\ admitLog (queueConnect 10000 0 (newClient 0 0)) = [mkAdmission 0 10000 Bypass]
   /\ lastReadyPacket (queueConnect 10000 0 (newClient 0 0)) = 0)
  /\ exists head rest,
       connectQueue waiting_client = head :: rest
       /\ lastReadyPacket waiting_client <= 14750 - 5250
       /\ find_connecting (shards waiting_client) = None
       /\ admitLog (timeout_callback 14750 waiting_client)
          = admitLog waiting_client ++ [mkAdmission head 14750 Timer]
       /\ lastReadyPacket (timeout_callback 14750 waiting_client)
          = lastReadyPacket waiting_client + 5250.
Proof.
  split.
  - apply (proj1 (admission_waits_for_stamp 10000 (newClient 0 0)) 0%nat).
    vm_compute. discriminate.
  - apply (proj2 (admission_waits_for_stamp 14750 waiting_client)).
    vm_compute. discriminate.
Defined.

(** Claim C3 as the specification words it does not hold.  A bypass
    admission at 10000 leaves [lastReadyPacket] at 0, so that once the shard
    has left Connecting without a ready packet a second admission follows
    100 ms after the first; and a timer admission at 14750 moves
    [lastReadyPacket] to 5250, not to 14750. *)
Lemma admission_time_not_recorded :
  let c := newClient 0 0 in
  let c1 := run c [Connect 10000] in
  let c2 := run c [Connect 10000; ShardSettled 0; QueueConnect 10100 0] in
  let c3 := timeout_callback 14750 waiting_client in
  admitLog c1 = [mkAdmission 0 10000 Bypass]
  /\ lastReadyPacket c1 <> 10000
  /\ admitLog c2 = [mkAdmission 0 10000 Bypass; mkAdmission 0 10100 Bypass]
  /\ spaced 5250 (List.map adm_time (admitLog c2)) = false
  /\ admitLog c3 = [mkAdmission 0 10000 Bypass; mkAdmission 1 14750 Timer]
  /\ lastReadyPacket c3 <> 14750.
Proof.
  vm_compute. repeat split; congruence.
Qed.

Lemma fifo_queueConnect now i c :
  timer_admitted c ++ connectQueue c = requestLog c ->
  timer_admitted (queueConnect now i c) ++ connectQueue (queueConnect now i c)
  = requestLog (queueConnect now i c).
Proof.
  intros H. unfold queueConnect. destruct (may_admit now c).
  - unfold timer_admitted in *. simpl. rewrite List.filter_app. simpl.
    rewrite List.app_nil_r. exact H.
  - rewrite connectQueue_tryConnect, requestLog_tryConnect.
    unfold timer_admitted in *. rewrite admitLog_tryConnect. simpl.
    rewrite List.app_assoc. f_equal. exact H.
Qed.

Lemma fifo_timeout_callback now c :
  timer_admitted c ++ connectQueue c = requestLog c ->
  timer_admitted (timeout_callback now c) ++ connectQueue (timeout_callback now c)
  = requestLog (timeout_callback now c).
Proof.
  intros H. unfold timeout_callback.
  destruct ((0 <? length (connectQueue c))%nat && may_admit now c).
  - destruct (connectQueue c) as [|head rest] eqn:Eq.
    + simpl. rewrite Eq. simpl. rewrite Eq. exact H.
    + simpl. destruct (0 <? length rest)%nat;
        rewrite ?connectQueue_tryConnect, ?requestLog_tryConnect;
        unfold timer_admitted in *; rewrite ?admitLog_tryConnect; simpl;
        rewrite List.filter_app, List.map_app; simpl;
        rewrite <- List.app_assoc; exact H.
  - simpl. destruct (0 <? length (connectQueue c))%nat;
      rewrite ?connectQueue_tryConnect, ?requestLog_tryConnect;
      unfold timer_admitted in *; rewrite ?admitLog_tryConnect; exact H.
Qed.

Lemma fifo_fold_connect now l : forall c,
  timer_admitted c ++ connectQueue c = requestLog c ->
  let c' := fold_left (connect_shard now) l c in
  timer_admitted c' ++ connectQueue c' = requestLog c'.
Proof.
  induction l as [|i l IH]; simpl; intros c H; [exact H|].
  apply IH. unfold connect_shard. apply fifo_queueConnect.
  destruct (shards_get i (shards c)); exact H.
Qed.

Lemma fifo_step c e :
  timer_admitted c ++ connectQueue c = requestLog c ->
  timer_admitted (step c e) ++ connectQueue (step c e) = requestLog (step c e).
Proof.
  intros H. destruct e as [now|now i|now|i|now i]; simpl.
  - apply fifo_fold_connect, H.
  - destruct (shards_get i (shards c)); [apply fifo_queueConnect|]; exact H.
  - destruct (connectTimeout c) as [due|]; [|exact H].
    destruct (due <=? now); [apply fifo_timeout_callback|]; exact H.
  - exact H.
  - exact H.
Qed.

Lemma fifo_run evs : forall c,
  timer_admitted c ++ connectQueue c = requestLog c ->
  timer_admitted (run c evs) ++ connectQueue (run c evs) = requestLog (run c evs).
Proof.
  induction evs as [|e evs IH]; simpl; intros c H; [exact H|].
  apply IH, fifo_step, H.
Qed.

(** Claim C4, in the form the code supports.  The shards pushed onto
    [connectQueue] are admitted by the timer in the order of their requests:
    in every reachable state the shards the timer has admitted, followed by
    those still pending, are the queued requests in request order.  The
    bypass in [queueConnect] depends on [lastReadyPacket] and the
    [connecting] flags alone: when that guard holds the shard connects at
    once and the pending list is left as it is, empty or not. *)
Theorem pending_admitted_in_request_order :
  (forall first last evs,
     let c := run (newClient first last) evs in
     timer_admitted c ++ connectQueue c = requestLog c)
  /\ (forall now i c, may_admit now c = true ->
        admitLog (queueConnect now i c) = admitLog c ++ [mkAdmission i now Bypass]
        /\ connectQueue (queueConnect now i c) = connectQueue c).
Proof.
  split.
  - intros first last evs. apply (fifo_run evs). reflexivity.
  - intros now i c H. unfold queueConnect. rewrite H. split; reflexivity.
Qed.

(** The order on a run of three shards, and the bypass with one shard
    pending. *)
Lemma pending_admitted_in_request_order_witness :
  (let c := run (newClient 0 2) sample_trace in
   timer_admitted c ++ connectQueue c = requestLog c)
  /\ admitLog (queueConnect 10200 0 waiting_client)
     = admitLog waiting_client ++ [mkAdmission 0 10200 Bypass]
  /\ connectQueue (queueConnect 10200 0 waiting_client) = connectQueue waiting_client.
Proof.
  destruct pending_admitted_in_request_order as [H1 H2].
  split; [apply H1|]. apply (H2 10200 0%nat waiting_client). reflexivity.
Defined.

(** Claim C4 as the specification words it does not hold.  Shard 1 is
    requested at 10000 and queued behind the connecting shard 0; shard 0
    leaves Connecting and asks again at 10200: it is connected at once,
    through the bypass, while shard 1 is still pending. *)
Lemma bypass_overtakes_pending :
  let c := run (newClient 0 1) [Connect 10000; ShardSettled 0; QueueConnect 10200 0] in
  connectQueue waiting_client = [1%nat]
  /\ requestLog waiting_client = [1%nat]
  /\ admitLog c = [mkAdmission 0 10000 Bypass; mkAdmission 0 10200 Bypass]
  /\ connectQueue c = [1%nat]
  /\ ~ (forall now i c', admitLog (queueConnect now i c') <> admitLog c' ->
                          connectQueue c' = []).
Proof.
  cbn zeta. split; [reflexivity|]. split; [reflexivity|]. split; [reflexivity|].
  split; [reflexivity|].
  intros H. specialize (H 10200 0%nat waiting_client).
  assert (Hq : connectQueue waiting_client = []) by (apply H; vm_compute; discriminate).
  vm_compute in Hq. discriminate.
Qed.

End SequencerFacts.

(** ** The gateway URL cache *)

Section GatewayFacts.
Import JS Rest Gateway.

Lemma append_nonempty (a b : string) (ch : ascii) :
  String.eqb (a ++ String ch b)%string "" = false.
Proof. destruct a; reflexivity. Qed.

Lemma gateway_of_nonempty url version :
  String.eqb (gateway_of url version) "" = false.
Proof. unfold gateway_of. apply append_nonempty. Qed.

Lemma getGateway_caches c reply c' url reqs :
  getGateway c reply = (c', Resolved url, reqs) -> cached c' = Some url.
Proof.
  unfold getGateway. destruct (cached c) as [u|] eqn:Ec.
  - intros H. inversion H; subst. exact Ec.
  - destruct reply as [data|e]; [|discriminate].
    destruct (url_of data) as [v|]; [|discriminate].
    destruct (truthy v); [|discriminate].
    destruct v; try discriminate.
    intros H. inversion H; subst. unfold cached. simpl.
    rewrite gateway_of_nonempty. reflexivity.
Qed.

Lemma getGateway_cached c url reply :
  cached c = Some url -> getGateway c reply = (c, Resolved url, []).
Proof. intros H. unfold getGateway. rewrite H. reflexivity. Qed.

Lemma getGateway_seq_cached c url replies :
  cached c = Some url ->
  getGateway_seq c replies = List.map (fun _ => (Resolved url, [])) replies.
Proof.
  intros H. induction replies as [|r rest IH]; simpl; [reflexivity|].
  rewrite (getGateway_cached c url r H). f_equal. exact IH.
Qed.

Lemma gateway_callback_cases c reply :
  ((gateway_callback c reply).1 = c /\ exists e, (gateway_callback c reply).2 = Rejected e)
  \/ exists g, (gateway_callback c reply).2 = Resolved g
               /\ cached (gateway_callback c reply).1 = Some g.
Proof.
  unfold gateway_callback. destruct reply as [data|e]; [|left; eauto].
  destruct (url_of data) as [v|]; [|left; eauto].
  destruct (truthy v); [|left; eauto].
  destruct v; try solve [left; eauto]. right. eexists. split; [reflexivity|].
  unfold cached. cbn [gatewayURL fst]. rewrite gateway_of_nonempty. reflexivity.
Qed.

Lemma gateway_callback_keeps_cache c reply :
  is_Some (cached c) -> is_Some (cached (gateway_callback c reply).1).
Proof.
  intros H. destruct (gateway_callback_cases c reply) as [[-> _]|(g & _ & ->)]; eauto.
Qed.

(** The one-call reading of [getGateway] is a call followed by its reply. *)
Lemma getGateway_call_then_reply c reply :
  let w := run (start c) [Call; Reply 0 reply] in
  client w = (getGateway c reply).1.1
  /\ requests w = (getGateway c reply).2
  /\ results w = [(0%nat, (getGateway c reply).1.2)].
Proof.
  cbn zeta. unfold run, getGateway, start. cbn [fold_left]. unfold step.
  cbn [client in_flight calls requests results].
  destruct (cached c) as [url|]; cbn [client in_flight calls requests results app nth_error];
    [repeat split|].
  unfold gateway_callback.
  destruct reply as [data|e]; [|repeat split].
  destruct (url_of data) as [v|]; [|repeat split].
  destruct (truthy v); [|repeat split].
  destruct v; repeat split.
Qed.

Lemma run_app w evs evs' : run w (evs ++ evs') = run (run w evs) evs'.
Proof. unfold run. apply fold_left_app. Qed.

Lemma run_snoc w evs ev : run w (evs ++ [ev]) = step (run w evs) ev.
Proof. unfold run. rewrite fold_left_app. reflexivity. Qed.

Lemma step_keeps_cache w ev :
  is_Some (cached (client w)) -> is_Some (cached (client (step w ev))).
Proof.
  intros H. destruct ev as [|i reply]; cbn [step].
  - destruct (cached (client w)) eqn:Ec; cbn [client]; rewrite Ec; exact H.
  - destruct (nth_error (in_flight w) i); [|exact H].
    pose proof (gateway_callback_keeps_cache (client w) reply H) as H'.
    destruct (gateway_callback (client w) reply). exact H'.
Qed.

Lemma step_results w ev x : In x (results w) -> In x (results (step w ev)).
Proof.
  intros H. destruct ev as [|i reply]; cbn [step].
  - destruct (cached (client w)); cbn [results]; [apply in_or_app; left|]; exact H.
  - destruct (nth_error (in_flight w) i); [|exact H].
    destruct (gateway_callback (client w) reply). cbn [results].
    apply in_or_app. left. exact H.
Qed.

Lemma run_results w evs x : In x (results w) -> In x (results (run w evs)).
Proof.
  revert w. induction evs as [|ev rest IH]; intros w H; [exact H|].
  apply (IH (step w ev)), step_results, H.
Qed.

(** A resolved promise means a cached URL. *)
Lemma resolved_is_cached c evs :
  resolved_once (run (start c) evs) -> is_Some (cached (client (run (start c) evs))).
Proof.
  induction evs as [|ev evs IH] using rev_ind.
  - intros (k & url & []).
  - rewrite run_snoc. set (w := run (start c) evs) in *. intros (k & url & Hin).
    destruct ev as [|i reply]; cbn [step] in *.
    + destruct (cached (client w)) as [u|] eqn:Ec; cbn [client results] in *.
      * rewrite Ec. eauto.
      * rewrite Ec. apply IH. exists k, url. exact Hin.
    + destruct (nth_error (in_flight w) i) as [caller|]; [|apply IH; exists k, url; exact Hin].
      pose proof (gateway_callback_cases (client w) reply) as Hc.
      pose proof (gateway_callback_keeps_cache (client w) reply) as Hk.
      destruct (gateway_callback (client w) reply) as [c' out]. cbn [client results fst snd] in *.
      apply in_app_or in Hin. destruct Hin as [Hin|[Hin|[]]].
      * apply Hk, IH. exists k, url. exact Hin.
      * inversion Hin; subst. destruct Hc as [[_ [e He]]|(g & _ & ->)]; [discriminate | eauto].
Qed.

(** Results and requests in flight belong to calls already made. *)
Lemma callers_are_past c evs :
  let w := run (start c) evs in
  (forall k s, In (k, s) (results w) -> (k < calls w)%nat)
  /\ (forall k, In k (in_flight w) -> (k < calls w)%nat).
Proof.
  cbn zeta. induction evs as [|ev evs IH] using rev_ind.
  - split; intros; contradiction.
  - rewrite run_snoc. set (w := run (start c) evs) in *. destruct IH as [IHr IHf].
    destruct ev as [|i reply]; cbn [step].
    + destruct (cached (client w)) as [u|]; cbn [results in_flight calls]; split.
      * intros k s H. apply in_app_or in H. destruct H as [H|[H|[]]].
        -- specialize (IHr k s H). lia.
        -- inversion H. lia.
      * intros k H. specialize (IHf k H). lia.
      * intros k s H. specialize (IHr k s H). lia.
      * intros k H. apply in_app_or in H. destruct H as [H|[H|[]]].
        -- specialize (IHf k H). lia.
        -- subst. lia.
    + destruct (nth_error (in_flight w) i) as [caller|] eqn:En; [|split; assumption].
      destruct (gateway_callback (client w) reply) as [c' out].
      cbn [results in_flight calls]. split.
      * intros k s H. apply in_app_or in H. destruct H as [H|[H|[]]].
        -- exact (IHr k s H).
        -- inversion H; subst. apply IHf. eapply nth_error_In, En.
      * intros k H. apply IHf. clear - H. revert i H.
        induction (in_flight w) as [|x l IHl]; intros i H; [destruct i; contradiction|].
        destruct i as [|j]; cbn [without] in H; [right; exact H|].
        destruct H as [H|H]; [left; exact H | right; exact (IHl j H)].
Qed.

Lemma run_keeps_cache w evs :
  is_Some (cached (client w)) -> is_Some (cached (client (run w evs))).
Proof.
  revert w. induction evs as [|ev rest IH]; intros w H; [exact H|].
  apply (IH (step w ev)), step_keeps_cache, H.
Qed.

(** With a URL cached, no call asks the gateway, and each is answered. *)
Lemma cached_run w evs :
  is_Some (cached (client w)) ->
  requests (run w evs) = requests w
  /\ (calls w <= calls (run w evs))%nat
  /\ forall k, (calls w <= k < calls (run w evs))%nat ->
       exists url, In (k, Resolved url) (results (run w evs)).
Proof.
  revert w. induction evs as [|ev rest IH]; intros w Hc.
  - cbn. split; [reflexivity|]. split; [lia|]. intros k Hk. lia.
  - change (run w (ev :: rest)) with (run (step w ev) rest).
    destruct (IH (step w ev) (step_keeps_cache w ev Hc)) as (Hr & Hle & Hk).
    assert (Hs : requests (step w ev) = requests w
                 /\ (calls w <= calls (step w ev))%nat
                 /\ forall k, (calls w <= k < calls (step w ev))%nat ->
                      exists url, In (k, Resolved url) (results (step w ev))).
    { destruct ev as [|i reply]; cbn [step].
      - destruct Hc as [url Hc]. rewrite Hc. cbn [requests calls results].
        split; [reflexivity|]. split; [lia|]. intros k Hk'. exists url.
        apply in_or_app. right. left. f_equal. lia.
      - destruct (nth_error (in_flight w) i); [|split; [reflexivity|split; [lia|intros; lia]]].
        destruct (gateway_callback (client w) reply). cbn [requests calls].
        split; [reflexivity|]. split; [lia|]. intros; lia. }
    destruct Hs as (Hr1 & Hle1 & Hk1).
    split; [congruence|]. split; [lia|]. intros k Hkk.
    destruct (Nat.lt_ge_cases k (calls (step w ev))) as [Hlt|Hge].
    + destruct (Hk1 k ltac:(lia)) as [url Hin]. exists url. apply run_results, Hin.
    + apply Hk. lia.
Qed.

(** With a URL cached and nothing in flight, the client never changes. *)
Lemma settled_run w evs url :
  cached (client w) = Some url -> in_flight w = [] ->
  client (run w evs) = client w
  /\ in_flight (run w evs) = []
  /\ forall k s, In (k, s) (results (run w evs)) ->
       In (k, s) (results w) \/ s = Resolved url.
Proof.
  revert w. induction evs as [|ev rest IH]; intros w Hc Hf.
  - cbn. auto.
  - change (run w (ev :: rest)) with (run (step w ev) rest).
    assert (Hs : client (step w ev) = client w /\ in_flight (step w ev) = []
                 /\ forall k s, In (k, s) (results (step w ev)) ->
                      In (k, s) (results w) \/ s = Resolved url).
    { destruct ev as [|i reply]; cbn [step].
      - rewrite Hc. cbn [client in_flight results]. split; [reflexivity|].
        split; [exact Hf|]. intros k s H. apply in_app_or in H.
        destruct H as [H|[H|[]]]; [left; exact H | right; congruence].
      - rewrite Hf. destruct i; cbn [nth_error]; auto. }
    destruct Hs as (H1 & H2 & H3).
    destruct (IH (step w ev) ltac:(rewrite H1; exact Hc) H2) as (H4 & H5 & H6).
    split; [congruence|]. split; [exact H5|]. intros k s H.
    destruct (H6 k s H) as [H'|H']; [exact (H3 k s H') | right; exact H'].
Qed.

(** Claim C6, in the form the code supports.  Once a call of [getGateway]
    has resolved, no later call issues a request, and each resolves at once
    with the URL that is cached when it is made; with no request left in
    flight that URL is one and the same from then on and the client does
    not change. *)
Theorem getGateway_resolves_once c evs evs' :
  let w := run (start c) evs in
  resolved_once w ->
  let w' := run w evs' in
  requests w' = requests w
  /\ (forall k, (calls w <= k < calls w')%nat ->
        exists url, In (k, Resolved url) (results w'))
  /\ (forall before after, evs' = before ++ Call :: after ->
        exists url, cached (client (run w before)) = Some url
                    /\ In (calls (run w before), Resolved url) (results w'))
  /\ (in_flight w = [] ->
      exists url, cached (client w) = Some url
        /\ client w' = client w
        /\ forall k s, (calls w <= k)%nat -> In (k, s) (results w') -> s = Resolved url).
Proof.
  cbn zeta. intros Hres. pose proof (resolved_is_cached c evs Hres) as Hc.
  destruct (cached_run (run (start c) evs) evs' Hc) as (H1 & _ & H3).
  split; [exact H1|]. split; [exact H3|]. split.
  { intros before after ->.
    destruct (run_keeps_cache (run (start c) evs) before Hc) as [url Hu].
    exists url. split; [exact Hu|].
    rewrite (run_app (run (start c) evs) before (Call :: after)).
    change (run ?x (Call :: after)) with (run (step x Call) after).
    apply run_results. cbn [step]. rewrite Hu. cbn [results].
    apply in_or_app. right. left. reflexivity. }
  intros Hf.
  destruct Hc as [url Hc]. exists url. split; [exact Hc|].
  destruct (settled_run (run (start c) evs) evs' url Hc Hf) as (H4 & _ & H6).
  split; [exact H4|]. intros k s Hk Hin.
  destruct (H6 k s Hin) as [Hold|Hnew]; [|exact Hnew].
  pose proof (proj1 (callers_are_past c evs) k s Hold). lia.
Qed.

(** A first resolution from the bootstrap reply, then two calls served
    from the cache. *)
Lemma getGateway_resolves_once_witness :
  let w := run (start fresh_client) [Call; Reply 0 hello] in
  let w' := run w [Call; Call] in
  results w = [(0%nat, Resolved resolved_url)]
  /\ requests w' = [gateway_request]
  /\ (exists url, In (1%nat, Resolved url) (results w'))
  /\ (forall k s, (1 <= k)%nat -> In (k, s) (results w') -> s = Resolved resolved_url).
Proof.
  cbn zeta.
  assert (H : resolved_once (run (start fresh_client) [Call; Reply 0 hello])).
  { exists 0%nat, resolved_url. left. reflexivity. }
  destruct (getGateway_resolves_once fresh_client [Call; Reply 0 hello] [Call; Call] H)
    as (H1 & H2 & _ & H3).
  split; [reflexivity|]. split; [exact H1|].
  split; [apply (H2 1%nat); vm_compute; lia|].
  destruct (H3 eq_refl) as (url & Hc & _ & H4).
  inversion Hc; subst url. exact H4.
Defined.

(** Claim C6 as the specification words it does not hold: two calls made
    before the first reply each send the bootstrap request, and the second
    reply replaces the URL the first one cached. *)
Lemma overlapping_calls_ask_twice :
  let w := run (start fresh_client) [Call; Call; Reply 0 hello; Reply 0 hello_again] in
  requests w = [gateway_request; gateway_request]
  /\ results w = [(0%nat, Resolved resolved_url);
                  (1%nat, Resolved "wss://gateway-2.discord.gg/?encoding=json&v=6")]
  /\ gatewayURL (client w) = Some "wss://gateway-2.discord.gg/?encoding=json&v=6".
Proof. vm_compute. repeat split. Qed.

End GatewayFacts.

(** ** Chunked bulk deletion *)

Section BulkDeleteFacts.
Import JS Rest BulkDelete.

Lemma strings_of_map l : strings_of (List.map JStr l) = l.
Proof. induction l; simpl; congruence. Qed.

Lemma request_ids_bulk ch l : request_ids (bulk_request ch l) = l.
Proof. unfold request_ids. simpl. apply strings_of_map. Qed.



Lemma deleteMessages_many env k now ch ids :
  (100 < length ids)%nat ->
  deleteMessages env k now ch ids =
  let first := mkSent now (bulk_request ch (firstn 100 ids)) in
  match failure (env k) with
  | Some e => mkRun [first] (Rejected e) []
  | None =>
      let rest := deleteMessages env (S k) (later env k now) ch (skipn 100 ids) in
      mkRun (first :: sent rest) (Resolved tt) (returned rest :: detached rest)
  end.
Proof.
  intros H. funelim (deleteMessages env k now ch ids); cbn [length] in *; try lia.
  reflexivity.
Qed.

Lemma deleteMessages_few env k now ch ids :
  (2 <= length ids <= 100)%nat ->
  deleteMessages env k now ch ids =
  mkRun [mkSent now (bulk_request ch ids)] (settle (env k)) [].
Proof.
  intros H. funelim (deleteMessages env k now ch ids); cbn [length] in *; try lia.
  reflexivity.
Qed.

Lemma bulk_shape now ch l :
  (2 <= length l <= 100)%nat -> request_shape ch (mkSent now (bulk_request ch l)).
Proof.
  intros H. red. unfold batch_size. simpl sent_req. rewrite request_ids_bulk. exact H.
Qed.

Lemma sent_shape env k now ch ids :
  Forall (request_shape ch) (sent (deleteMessages env k now ch ids)).
Proof.
  funelim (deleteMessages env k now ch ids).
  - constructor.
  - constructor; [|constructor]. red. simpl. eauto.
  - constructor; [|constructor]. apply bulk_shape. cbn [length] in *. lia.
  - assert (Hf : request_shape channelID
                   (mkSent now (bulk_request channelID (firstn 100 (s :: s0 :: l))))).
    { apply bulk_shape. rewrite length_firstn. cbn [length] in *. lia. }
    destruct (failure (env k)); simpl; constructor; auto.
Qed.

Lemma sent_starts_now env k now ch ids :
  Forall (fun s => now <= sent_at s) (sent (deleteMessages env k now ch ids)).
Proof.
  funelim (deleteMessages env k now ch ids).
  - constructor.
  - constructor; [simpl; lia | constructor].
  - constructor; [simpl; lia | constructor].
  - destruct (failure (env k)); simpl; constructor; simpl; try lia; try constructor.
    eapply List.Forall_impl; [|exact H]. simpl. intros a Ha. lia.
Qed.

Lemma spaced_cons gap a l :
  Forall (fun b => a + gap <= b) l -> spaced gap l = true -> spaced gap (a :: l) = true.
Proof.
  intros Hf Hs. destruct l as [|b l]; [reflexivity|].
  inversion Hf; subst. change (((a + gap <=? b) && spaced gap (b :: l)) = true).
  rewrite Hs, andb_true_r. lia.
Qed.

Lemma sent_spaced env k now ch ids :
  spaced 1000 (List.map sent_at (sent (deleteMessages env k now ch ids))) = true.
Proof.
  funelim (deleteMessages env k now ch ids); try reflexivity.
  destruct (failure (env k)); [reflexivity|].
  simpl sent. rewrite List.map_cons. simpl sent_at. apply spaced_cons; [|exact H].
  apply List.Forall_map.
  eapply List.Forall_impl; [|apply sent_starts_now]. simpl. intros a Ha. lia.
Qed.

Lemma sent_stops_at_failure env ch ids : forall k now j e,
  (k <= j)%nat -> failure (env j) = Some e ->
  (length (sent (deleteMessages env k now ch ids)) <= S (j - k))%nat.
Proof.
  intros k now. funelim (deleteMessages env k now ch ids); intros j e Hj He;
    try (simpl; lia).
  destruct (failure (env k)) eqn:Ek; [simpl; lia|].
  assert (Hne : j <> k) by (intros ->; congruence).
  specialize (H j e ltac:(lia) He). cbn [sent length].
  replace (j - k)%nat with (S (j - S k)) by lia. lia.
Qed.

Lemma returned_first env k now ch ids :
  ids <> [] -> returned (deleteMessages env k now ch ids) = settle (env k).
Proof.
  funelim (deleteMessages env k now ch ids); intros Hne; try reflexivity; [congruence|].
  unfold settle. destruct (failure (env k)); reflexivity.
Qed.

Lemma sent_all env ch ids : forall k now,
  (forall j, failure (env j) = None) ->
  concat (List.map (fun s => request_ids (sent_req s)) (sent (deleteMessages env k now ch ids))) = ids
  /\ length (sent (deleteMessages env k now ch ids)) = ((length ids + 99) / 100)%nat.
Proof.
  intros k now. funelim (deleteMessages env k now ch ids); intros Hok.
  - split; reflexivity.
  - split; reflexivity.
  - cbn [sent List.map concat sent_req]. rewrite request_ids_bulk. split; [apply List.app_nil_r|].
    simpl length in *. apply Nat.div_unique with (r := (S (S (length l)) + 99 - 100)%nat); lia.
  - rewrite Hok. cbn [sent]. destruct (H Hok) as [H1 H2]. split.
    + rewrite List.map_cons, List.concat_cons. cbn [sent_req]. rewrite request_ids_bulk. rewrite H1. apply firstn_skipn.
    + cbn [length]. rewrite H2, length_skipn. cbn [length] in *.
      set (n := S (S (length l))) in *.
      replace (n + 99)%nat with ((n - 100 + 99) + 1 * 100)%nat by lia.
      rewrite Nat.div_add by lia. lia.
Qed.

Lemma size_bulk now ch l : batch_size (mkSent now (bulk_request ch l)) = length l.
Proof. unfold batch_size. simpl sent_req. rewrite request_ids_bulk. reflexivity. Qed.

Lemma sizes_250 env k now ch ids :
  length ids = 250%nat ->
  failure (env k) = None -> failure (env (S k)) = None ->
  List.map batch_size (sent (deleteMessages env k now ch ids)) = [100; 100; 50]%nat.
Proof.
  intros Hl H0 H1.
  rewrite deleteMessages_many by lia. cbn zeta. rewrite H0. cbn [sent List.map].
  rewrite deleteMessages_many by (rewrite length_skipn; lia). cbn zeta. rewrite H1.
  cbn [sent List.map].
  rewrite deleteMessages_few by (rewrite !length_skipn; lia). cbn [sent List.map].
  rewrite !size_bulk, !length_firstn, !length_skipn, Hl. reflexivity.
Qed.

Lemma second_failure_250 env k now ch ids e :
  length ids = 250%nat ->
  failure (env k) = None -> failure (env (S k)) = Some e ->
  List.map batch_size (sent (deleteMessages env k now ch ids)) = [100; 100]%nat
  /\ returned (deleteMessages env k now ch ids) = Resolved tt
  /\ detached (deleteMessages env k now ch ids) = [Rejected e].
Proof.
  intros Hl H0 H1.
  rewrite deleteMessages_many by lia. cbn zeta. rewrite H0. cbn [sent returned detached List.map].
  rewrite deleteMessages_many by (rewrite length_skipn; lia). cbn zeta. rewrite H1.
  cbn [sent returned detached List.map].
  rewrite !size_bulk, !length_firstn, !length_skipn, Hl. repeat split.
Qed.

(** Claim C7, in the form the code supports.  Whatever the replies,
    [deleteMessages] sends its requests one after the other, each naming at
    most a hundred messages: bulk deletions of two to a hundred identifiers,
    and a single-message deletion when exactly one identifier remains.
    Consecutive requests are handed over at least 1000 ms apart.  When no
    request fails the requests name the identifiers given, in order, in
    ceil(n / 100) requests; 250 identifiers go out as 100, 100 and 50. *)
Theorem deleteMessages_batches env now ch ids :
  let r := deleteMessages env 0 now ch ids in
  Forall (request_shape ch) (sent r)
  /\ spaced 1000 (List.map sent_at (sent r)) = true
  /\ ((forall j, failure (env j) = None) ->
      concat (List.map (fun s => request_ids (sent_req s)) (sent r)) = ids
      /\ length (sent r) = ((length ids + 99) / 100)%nat
      /\ (length ids = 250%nat -> List.map batch_size (sent r) = [100; 100; 50]%nat)).
Proof.
  cbn zeta. split; [apply sent_shape|]. split; [apply sent_spaced|].
  intros Hok. destruct (sent_all env ch ids 0%nat now Hok) as [H1 H2].
  split; [exact H1|]. split; [exact H2|].
  intros Hl. apply sizes_250; auto.
Qed.

(** 250 identifiers, every request succeeding. *)
Lemma deleteMessages_batches_witness :
  let r := deleteMessages all_ok 0 0 "c" (message_ids 250) in
  concat (List.map (fun s => request_ids (sent_req s)) (sent r)) = message_ids 250
  /\ length (sent r) = ((length (message_ids 250) + 99) / 100)%nat
  /\ List.map batch_size (sent r) = [100; 100; 50]%nat.
Proof.
  cbn zeta.
  destruct (deleteMessages_batches all_ok 0 "c" (message_ids 250)) as (_ & _ & H).
  destruct (H (fun _ => eq_refl)) as (H1 & H2 & H3).
  split; [exact H1|]. split; [exact H2|]. apply H3. reflexivity.
Defined.

(** Claim C7 as the specification words it does not hold: of 101
    identifiers the last goes out 1032 ms later as a DELETE of one message,
    not as a bulk deletion. *)
Lemma remainder_of_one_is_not_bulk :
  let r := deleteMessages all_ok 0 0 "c" (message_ids 101) in
  List.map (fun s => (sent_at s, req_method (sent_req s), req_url (sent_req s))) (sent r)
  = [(0, "POST", CHANNEL_BULK_DELETE "c"); (1032, "DELETE", CHANNEL_MESSAGE "c" "100")]
  /\ forallb (fun s => is_bulk (sent_req s)) (sent r) = false.
Proof. vm_compute. split; reflexivity. Qed.

Lemma first_failure env k now ch ids e :
  ids <> [] -> failure (env k) = Some e ->
  returned (deleteMessages env k now ch ids) = Rejected e
  /\ length (sent (deleteMessages env k now ch ids)) = 1%nat.
Proof.
  funelim (deleteMessages env k now ch ids); intros Hne He; [congruence| | |].
  - cbn [returned sent length]. unfold settle. rewrite He. split; reflexivity.
  - cbn [returned sent length]. unfold settle. rewrite He. split; reflexivity.
  - rewrite He. split; reflexivity.
Qed.

(** Claim C2, in the form the code supports.  No request is sent after one
    that failed.  [deleteMessages] counts nothing: its promise resolves
    without a value, or is rejected with an error and nothing else.  When
    the first request fails, nothing more is sent and the promise handed to
    the caller is rejected with that request's error.  With 250 identifiers
    and the second request failing, two requests of 100 identifiers are sent
    and no third. *)
Theorem bulk_failure_stops_batches env now ch ids :
  let r := deleteMessages env 0 now ch ids in
  (forall j e, failure (env j) = Some e -> (length (sent r) <= S j)%nat)
  /\ (returned r = Resolved tt \/ exists e, returned r = Rejected e)
  /\ (forall e, ids <> [] -> failure (env 0%nat) = Some e ->
        returned r = Rejected e /\ length (sent r) = 1%nat)
  /\ (forall e, length ids = 250%nat ->
        failure (env 0%nat) = None -> failure (env 1%nat) = Some e ->
        List.map batch_size (sent r) = [100; 100]%nat).
Proof.
  cbn zeta. split; [|split; [|split]].
  - intros j e He.
    pose proof (sent_stops_at_failure env ch ids 0%nat now j e ltac:(lia) He) as H.
    replace (j - 0)%nat with j in H by lia. exact H.
  - destruct (returned (deleteMessages env 0 now ch ids)) as [[]|e]; eauto.
  - intros e. apply first_failure.
  - intros e Hl H0 H1. exact (proj1 (second_failure_250 env 0 now ch ids e Hl H0 H1)).
Qed.

(** 250 identifiers: the second request failing, and the first. *)
Lemma bulk_failure_stops_batches_witness :
  (let r := deleteMessages second_fails 0 0 "c" (message_ids 250) in
   (length (sent r) <= 2)%nat
   /\ List.map batch_size (sent r) = [100; 100]%nat)
  /\ (let r := deleteMessages first_fails 0 0 "c" (message_ids 250) in
      returned r = Rejected (Failure (JStr "Internal Server Error"))
      /\ length (sent r) = 1%nat).
Proof.
  cbn zeta. split.
  - destruct (bulk_failure_stops_batches second_fails 0 "c" (message_ids 250))
      as (H1 & _ & _ & H3).
    split; [apply (H1 1%nat (Failure (JStr "Internal Server Error"))); reflexivity|].
    apply (H3 (Failure (JStr "Internal Server Error"))); reflexivity.
  - destruct (bulk_failure_stops_batches first_fails 0 "c" (message_ids 250))
      as (_ & _ & H2 & _).
    apply H2; [vm_compute; discriminate | reflexivity].
Defined.

(** Claim C2 as the specification words it does not hold: with 250
    identifiers and the second request failing, what the caller holds is the
    valueless resolved promise of a run in which nothing failed; it reports
    neither a count of 100 nor that request's error. *)
Lemma outcome_carries_no_count :
  let r := deleteMessages second_fails 0 0 "c" (message_ids 250) in
  List.map batch_size (sent r) = [100; 100]%nat
  /\ returned r = Resolved tt
  /\ returned r = returned (deleteMessages all_ok 0 0 "c" (message_ids 250))
  /\ returned r <> Rejected (Failure (JStr "Internal Server Error")).
Proof. vm_compute. repeat split; congruence. Qed.

End BulkDeleteFacts.

(** ** The entity cache *)

Section CollectionFacts.
Import JS Cache.
Context {E : Type} {K : EntityKind E}.

Lemma add_merges_existing (data : Payload) (c : Collection E) (r : nat) (e : E) :
  index c !! pl_id data = Some r -> store c !! r = Some e ->
  add data c
  = Some (mkCollection (index c) (<[r := update e data]> (store c)) (next_ref c), r).
Proof.
  intros Hi Hs. unfold add. rewrite Hi. f_equal. f_equal. f_equal.
  apply map_eq. intros j. destruct (decide (r = j)) as [->|Hne].
  - rewrite lookup_alter_eq, lookup_insert_eq, Hs. reflexivity.
  - rewrite lookup_alter_ne, lookup_insert_ne by assumption. reflexivity.
Qed.

Lemma add_throws (data : Payload) (c : Collection E) :
  add data c = None <-> index c !! pl_id data = None /\ construct data = None.
Proof.
  unfold add. destruct (index c !! pl_id data) as [r|].
  - split; [discriminate | intros [H _]; discriminate].
  - destruct (construct data) as [e|].
    + split; [discriminate | intros [_ H]; discriminate].
    + split; auto.
Qed.

Lemma add_stores (data : Payload) (c c1 : Collection E) (r1 : nat) :
  well_formed c -> add data c = Some (c1, r1) ->
  exists e, index c1 !! pl_id data = Some r1
            /\ store c1 !! r1 = Some e
            /\ (index c !! pl_id data = None -> construct data = Some e).
Proof.
  intros Hwf. destruct (index c !! pl_id data) as [r|] eqn:Hi.
  - destruct (Hwf _ _ Hi) as [_ [e0 He0]].
    rewrite (add_merges_existing data c r e0 Hi He0). intros H. inversion H; subst.
    exists (update e0 data). cbn [index store]. split; [exact Hi|].
    split; [apply lookup_insert_eq | discriminate].
  - unfold add. rewrite Hi. destruct (construct data) as [e|]; [|discriminate].
    intros H. inversion H; subst. exists e. cbn [index store].
    split; [apply lookup_insert_eq|]. split; [apply lookup_insert_eq | reflexivity].
Qed.

Lemma add_twice (d1 d2 : Payload) (c c1 : Collection E) (r1 : nat) :
  well_formed c -> pl_id d1 = pl_id d2 ->
  add d1 c = Some (c1, r1) ->
  exists c2, add d2 c1 = Some (c2, r1)
    /\ index c2 = index c1
    /\ size (index c2) = size (index c1)
    /\ exists e1, store c1 !! r1 = Some e1
                  /\ store c2 !! r1 = Some (update e1 d2)
                  /\ forall r, r <> r1 -> store c2 !! r = store c1 !! r.
Proof.
  intros Hwf Hid Ha.
  destruct (add_stores d1 c c1 r1 Hwf Ha) as (e1 & Hi & Hs & _).
  rewrite Hid in Hi.
  rewrite (add_merges_existing d2 _ _ e1 Hi Hs). eexists. split; [reflexivity|].
  cbn [index store].
  split; [reflexivity|]. split; [reflexivity|].
  exists e1. split; [exact Hs|]. split; [apply lookup_insert_eq|].
  intros r Hr. apply lookup_insert_ne. congruence.
Qed.
End CollectionFacts.

Section EntityFacts.
Import JS Cache.

Lemma GroupChannel_update_merges (this : GroupChannel) (data : Payload) :
  let e := update this data in
  gc_id e = gc_id this
  /\ gc_recipients e = gc_recipients this
  /\ merged (prop "name" data) (gc_name this) (gc_name e)
  /\ merged (prop "owner_id" data) (gc_ownerID this) (gc_ownerID e)
  /\ merged (prop "icon" data) (gc_icon this) (gc_icon e).
Proof. repeat split. Qed.

Lemma GroupChannel_new_throws (data : Payload) :
  construct (E := GroupChannel) data = None
  <-> forall l, prop "recipients" data <> JArr l.
Proof.
  cbn [construct GroupChannel_kind]. unfold GroupChannel_new, recipients_of.
  destruct (prop "recipients" data); split; try discriminate; try reflexivity.
  intros H. exfalso. exact (H _ eq_refl).
Qed.

Section MemberFacts.
Variable Date_parse : jsval -> jsval.
Variable VS : Type.
Variable VS_new : Payload -> VS.
Variable VS_update : VS -> Payload -> VS.
Variable User : Type.
Variable users_get : string -> option User.
Variable users_add : jsval -> User.

Lemma Member_update_merges (this : @Member VS User) (data : Payload) :
  let e := @update _ (Member_kind Date_parse VS VS_new VS_update User users_get users_add) this data in
  m_id e = m_id this
  /\ m_user e = m_user this
  /\ merged_or (JStr "offline") (prop "status" data) (m_status this) (m_status e)
  /\ merged_or JNull (prop "game" data) (m_game this) (m_game e)
  /\ merged_or JNull (prop "nick" data) (m_nick this) (m_nick e)
  /\ merged (prop "roles" data) (m_roles this) (m_roles e)
  /\ m_joinedAt e = (if is_undefined (prop "joined_at" data) then m_joinedAt this
                     else Date_parse (prop "joined_at" data))
  /\ m_voiceState e = (if is_undefined (prop "mute" data) then m_voiceState this
                       else VS_update (m_voiceState this) data).
Proof. repeat split. Qed.

Lemma Member_new_throws (data : Payload) :
  @construct _ (Member_kind Date_parse VS VS_new VS_update User users_get users_add) data = None
  <-> users_get (pl_id data) = None /\ truthy (prop "user" data) = false.
Proof.
  cbn [construct Member_kind]. unfold Member_new, Member_user.
  destruct (users_get (pl_id data)) as [u|].
  - split; [discriminate | intros [H _]; discriminate].
  - destruct (truthy (prop "user" data)).
    + split; [discriminate | intros [_ H]; discriminate].
    + split; auto.
Qed.

End MemberFacts.

(** Claim C5, in the form the code supports.  When the first [add] under
    an id succeeds, the second one succeeds and returns the reference the
    first one returned; one entry is left, the index is unchanged, and the
    stored instance is the first one after [update] with the second payload,
    other instances being untouched.  [add] fails, storing nothing, exactly
    when the id is new and the constructor throws: for a [GroupChannel] when
    [recipients] is no array, for a [Member] when its user is neither cached
    nor in the payload.  [GroupChannel.update] takes [name], [owner_id] and
    [icon] where the payload defines them and keeps the rest.
    [Member.update] does so for [roles], and for [joinedAt] through
    [Date.parse]; the voice state is handed to [VoiceState.update] when the
    payload defines [mute] and is left alone otherwise; for [status], [game]
    and [nick] an absent field keeps the prior value only when that is
    truthy, and else becomes "offline", null and null. *)
Theorem add_twice_merges :
  (forall (E : Type) (K : EntityKind E) (d1 d2 : Payload) (c c1 : Collection E) (r1 : nat),
     well_formed c -> pl_id d1 = pl_id d2 ->
     add d1 c = Some (c1, r1) ->
     exists c2, add d2 c1 = Some (c2, r1)
       /\ index c2 = index c1
       /\ size (index c2) = size (index c1)
       /\ exists e1, store c1 !! r1 = Some e1
                     /\ store c2 !! r1 = Some (update e1 d2)
                     /\ forall r, r <> r1 -> store c2 !! r = store c1 !! r)
  /\ (forall (E : Type) (K : EntityKind E) (d : Payload) (c : Collection E),
        add d c = None <-> index c !! pl_id d = None /\ construct d = None)
  /\ (forall (this : GroupChannel) (data : Payload),
        let e := update this data in
        gc_id e = gc_id this
        /\ gc_recipients e = gc_recipients this
        /\ merged (prop "name" data) (gc_name this) (gc_name e)
        /\ merged (prop "owner_id" data) (gc_ownerID this) (gc_ownerID e)
        /\ merged (prop "icon" data) (gc_icon this) (gc_icon e))
  /\ (forall data : Payload,
        construct (E := GroupChannel) data = None
        <-> forall l, prop "recipients" data <> JArr l)
  /\ (forall Date_parse VS VS_new VS_update User users_get users_add
             (this : @Member VS User) (data : Payload),
        let K := Member_kind Date_parse VS VS_new VS_update User users_get users_add in
        let e := @update _ K this data in
        (m_id e = m_id this
         /\ m_user e = m_user this
         /\ merged_or (JStr "offline") (prop "status" data) (m_status this) (m_status e)
         /\ merged_or JNull (prop "game" data) (m_game this) (m_game e)
         /\ merged_or JNull (prop "nick" data) (m_nick this) (m_nick e)
         /\ merged (prop "roles" data) (m_roles this) (m_roles e)
         /\ m_joinedAt e = (if is_undefined (prop "joined_at" data) then m_joinedAt this
                            else Date_parse (prop "joined_at" data))
         /\ m_voiceState e = (if is_undefined (prop "mute" data) then m_voiceState this
                              else VS_update (m_voiceState this) data))
        /\ (@construct _ K data = None
            <-> users_get (pl_id data) = None /\ truthy (prop "user" data) = false)).
Proof.
  split; [|split; [|split; [|split]]].
  - intros E K d1 d2 c c1 r1. apply add_twice.
  - intros E K d c. apply add_throws.
  - apply GroupChannel_update_merges.
  - apply GroupChannel_new_throws.
  - intros. split; [apply Member_update_merges | apply Member_new_throws].
Qed.

Lemma well_formed_empty {E : Type} : well_formed (@empty_collection E).
Proof. intros id r H. simpl in H. rewrite lookup_empty in H. discriminate. Qed.

(** Two sightings of member 42 in an empty cache, and a member whose user
    nobody knows. *)
Lemma add_twice_merges_witness :
  let K := plain_members in
  (exists c1 r1 c2,
     add first_sight empty_collection = Some (c1, r1)
     /\ add presence c1 = Some (c2, r1)
     /\ size (index c2) = size (index c1)
     /\ exists e1, store c1 !! r1 = Some e1 /\ store c2 !! r1 = Some (update e1 presence))
  /\ add stranger empty_collection = None.
Proof.
  cbn zeta. split.
  - destruct (add (K := plain_members) first_sight empty_collection) as [[c1 r1]|] eqn:Ha;
      [|discriminate Ha].
    destruct (proj1 add_twice_merges _ plain_members first_sight presence
                empty_collection c1 r1 well_formed_empty eq_refl Ha)
      as (c2 & H1 & _ & H3 & e1 & H4 & H5 & _).
    exists c1, r1, c2. split; [reflexivity|]. split; [exact H1|]. split; [exact H3|].
    exists e1. split; [exact H4 | exact H5].
  - apply (proj1 (proj2 add_twice_merges) _ plain_members stranger empty_collection).
    split; reflexivity.
Defined.

(** Claim C5 as the specification words it does not hold: a member first
    seen with the nick "" and then updated by a payload without [nick] ends
    with the nick null. *)
Lemma absent_nick_not_retained :
  let K := plain_members in
  exists c1 r1 c2,
    add first_sight empty_collection = Some (c1, r1)
    /\ add presence c1 = Some (c2, r1)
    /\ prop "nick" presence = JUndefined
    /\ m_nick <$> get "42" c1 = Some (JStr "")
    /\ m_nick <$> get "42" c2 = Some JNull
    /\ size (index c2) = 1%nat.
Proof.
  cbn zeta. do 3 eexists. split; [vm_compute; reflexivity|].
  split; [vm_compute; reflexivity|]. vm_compute. repeat split.
Qed.

End EntityFacts.

(** ** Voice *)

Section VoiceFacts.
Import JS Rest Voice.

Lemma land_bool_even (b : bool) (n : Z) :
  Z.testbit n 0 = false -> Z.land (int_of_bool b) n = 0.
Proof.
  intros H. destruct b; simpl int_of_bool; [|apply Z.land_0_l].
  rewrite Z.land_comm. change 1 with (Z.ones 1). rewrite Z.land_ones by lia.
  change (2 ^ 1) with 2. rewrite <- Z.bit0_mod, H. reflexivity.
Qed.

Lemma permission_never_denied voiceConnect ch :
  Z.testbit voiceConnect 0 = false -> permission_denied voiceConnect ch = false.
Proof.
  intros H. unfold permission_denied, permission_guard.
  destruct (ch_guild ch); [|reflexivity].
  rewrite land_bool_even by exact H. reflexivity.
Qed.

(** Claim C9.  With [Constants.Permissions.voiceConnect] a flag above bit
    0, the guard [!allow & voiceConnect] is 0 for every value of [allow],
    the negation being applied before the conjunction; hence
    [joinVoiceChannel] never rejects with "Insufficient permission to connect
    to voice channel". *)
Theorem permission_branch_unreachable (voiceConnect : Z) :
  Z.testbit voiceConnect 0 = false ->
  (forall allow, permission_guard voiceConnect allow = 0)
  /\ (forall c channelID waitForReady,
        (joinVoiceChannel voiceConnect c channelID waitForReady).2
        <> RejectedNow InsufficientPermission).
Proof.
  intros H. split.
  - intros allow. apply land_bool_even, H.
  - intros c channelID w. unfold joinVoiceChannel.
    destruct (getChannel c channelID) as [| |ch]; simpl; try discriminate.
    rewrite permission_never_denied by exact H.
    destruct (manager_join _ _) as [err|[m h]]; simpl; [discriminate|].
    unfold result_of. destruct (strict_false w || connection_ready m h); discriminate.
Qed.

(** The guard for the flag 1 << 20 and a member allowed nothing. *)
Lemma permission_branch_unreachable_witness :
  permission_guard (Z.shiftl 1 20) (JNum 0) = 0
  /\ (joinVoiceChannel (Z.shiftl 1 20) sample_client "c1" JUndefined).2
     <> RejectedNow InsufficientPermission.
Proof.
  destruct (permission_branch_unreachable (Z.shiftl 1 20) eq_refl) as [H1 H2].
  split; [apply H1 | apply H2].
Defined.












End VoiceFacts.

(** ** Message creation *)

Section MessageFacts.
Import JS Rest Messages.

Lemma assoc_assoc_set k v fields : assoc k (assoc_set k v fields) = v.
Proof.
  induction fields as [|[k' v'] rest IH]; simpl.
  - rewrite String.eqb_refl. reflexivity.
  - destruct (String.eqb k k') eqn:E; simpl; rewrite E; [reflexivity | exact IH].
Qed.

Lemma typeof_string v : String.eqb (typeof v) "string" = true -> exists s, v = JStr s.
Proof. destruct v; simpl; try discriminate. eauto. Qed.

Lemma normalize_content_is_string content fields :
  normalize content = Some fields ->
  assoc "content" fields = JStr (content_string fields).
Proof.
  unfold normalize, content_string.
  destruct (String.eqb (typeof content) "string") eqn:Et.
  - destruct (typeof_string _ Et) as [s ->]. intros H. inversion H. reflexivity.
  - destruct content as [| | | | | |items|fields0]; try discriminate;
      try (intros H; inversion H; reflexivity).
    destruct (is_undefined (assoc "content" fields0)).
    + intros H; inversion H; reflexivity.
    + destruct (String.eqb (typeof (assoc "content" fields0)) "string") eqn:Ec; simpl.
      * destruct (typeof_string _ Ec) as [s Hs]. intros H. inversion H; subst.
        rewrite Hs. reflexivity.
      * intros H. inversion H. rewrite assoc_assoc_set. reflexivity.
Qed.

Lemma normalize_throws content : normalize content = None <-> content = JNull.
Proof.
  split; [|intros ->; reflexivity].
  unfold normalize. destruct (String.eqb (typeof content) "string"); [discriminate|].
  destruct content as [| | | | | |items|fields]; try discriminate; [reflexivity|].
  destruct (is_undefined (assoc "content" fields)); [discriminate|].
  destruct (negb (String.eqb (typeof (assoc "content" fields)) "string")); discriminate.
Qed.

(** Claim C10, on the code.  On null, [createMessage] throws while reading
    [content.content], with or without a file, and issues no request.  On
    every other content it rejects with "No content or file" and issues no
    request when the normalised content string is empty and [file] is
    missing or falsy, and else issues one POST to the channel's messages
    route, carrying [file]. *)
Theorem createMessage_needs_content_or_file disableEveryone channelID content file :
  let o := createMessage disableEveryone channelID content file in
  match normalize content with
  | None => content = JNull /\ o = Throws TypeError /\ requests_of o = []
  | Some fields =>
      content <> JNull
      /\ if String.eqb (content_string fields) "" && negb (truthy file)
         then o = Rejects NoContentOrFile /\ requests_of o = []
         else exists r, o = Requests r /\ requests_of o = [r]
                        /\ req_method r = "POST"
                        /\ req_url r = CHANNEL_MESSAGES channelID
                        /\ req_file r = file
  end.
Proof.
  cbn zeta. unfold createMessage. destruct (normalize content) as [fields|] eqn:Hn.
  - split; [intros ->; discriminate|].
    rewrite (normalize_content_is_string _ _ Hn). cbn [truthy]. rewrite negb_involutive.
    destruct (String.eqb (content_string fields) "" && negb (truthy file)).
    + split; reflexivity.
    + eexists. repeat split.
  - split; [apply normalize_throws, Hn | split; reflexivity].
Qed.

(** A file sent with null for content: [typeof null] is "object", so the
    call goes past the branch that would make the text "null" and throws;
    [editMessage] tests [content == null] first and sends that text. *)
Example createMessage_null :
  createMessage (JBool true) "c1" JNull (JObj [("name", JStr "a.png")]) = Throws TypeError
  /\ requests_of (createMessage (JBool true) "c1" JNull (JObj [("name", JStr "a.png")])) = []
  /\ Editing.body_text (Editing.editMessage (JBool true) "c1" "m1" JNull JUndefined) = Some "null"
  /\ exists r, createMessage (JBool true) "c1" JUndefined (JObj [("name", JStr "a.png")])
               = Requests r
               /\ Editing.body_text r = Some "undefined".
Proof. repeat split. eexists. split; reflexivity. Qed.

End MessageFacts.

(** * Further properties *)

(** ** The connect sequencer, continued *)

Section SequencerMore.
Import Sequencer Teardown.

Lemma tryConnect_armed now c : is_Some (connectTimeout (tryConnect now c)).
Proof.
  unfold tryConnect. destruct (connectTimeout c) eqn:E; simpl; [rewrite E|]; eauto.
Qed.

Lemma attended_queueConnect now i c : attended c -> attended (queueConnect now i c).
Proof.
  intros H. unfold queueConnect. destruct (may_admit now c).
  - exact H.
  - right. apply tryConnect_armed.
Qed.

Lemma attended_timeout_callback now c : attended (timeout_callback now c).
Proof.
  unfold timeout_callback. cbv zeta.
  match goal with
  | |- context [set_connectTimeout None ?x] => generalize x
  end.
  intros c1.
  destruct (0 <? length (connectQueue (set_connectTimeout None c1)))%nat eqn:E.
  - right. apply tryConnect_armed.
  - left. simpl in *. destruct (connectQueue c1); [reflexivity | discriminate].
Qed.

Lemma attended_fold_connect now l : forall c,
  attended c -> attended (fold_left (connect_shard now) l c).
Proof.
  induction l as [|i l IH]; simpl; intros c H; [exact H|].
  apply IH. unfold connect_shard. apply attended_queueConnect.
  destruct (shards_get i (shards c)); exact H.
Qed.

Lemma attended_step c e : attended c -> attended (step c e).
Proof.
  intros H. destruct e as [now|now i|now|i|now i]; simpl.
  - apply attended_fold_connect, H.
  - destruct (shards_get i (shards c)); [apply attended_queueConnect|]; exact H.
  - destruct (connectTimeout c) as [due|] eqn:E; [|exact H].
    destruct (due <=? now); [apply attended_timeout_callback | exact H].
  - exact H.
  - exact H.
Qed.

Lemma attended_run evs : forall c, attended c -> attended (run c evs).
Proof.
  induction evs as [|e evs IH]; simpl; intros c H; [exact H|].
  apply IH, attended_step, H.
Qed.

(** In every state the sequencer reaches, shards waiting in
    [connectQueue] have a [connectTimeout] timer pending: the queue is never
    left to itself. *)
Theorem pending_shards_have_timer first last evs :
  connectQueue (run (newClient first last) evs) <> [] ->
  is_Some (connectTimeout (run (newClient first last) evs)).
Proof.
  intros Hq. destruct (attended_run evs (newClient first last)) as [H|H].
  - left. reflexivity.
  - contradiction.
  - exact H.
Qed.

Lemma pending_shards_have_timer_witness :
  is_Some (connectTimeout (run (newClient 0 2) sample_trace)).
Proof.
  apply pending_shards_have_timer. vm_compute. discriminate.
Defined.

(** [tryConnect] leaves a pending timer alone, and otherwise arms one due
    between 250 and 5250 ms from now, whatever [lastReadyPacket] holds. *)
Theorem tryConnect_arms_once now c :
  (forall now', tryConnect now' (tryConnect now c) = tryConnect now c)
  /\ match connectTimeout c with
     | Some due => connectTimeout (tryConnect now c) = Some due
     | None => exists due, connectTimeout (tryConnect now c) = Some due
                           /\ now + 250 <= due <= now + 5250
     end.
Proof.
  split.
  - intros now'. unfold tryConnect at 1.
    destruct (tryConnect_armed now c) as [due Hd]. rewrite Hd. reflexivity.
  - unfold tryConnect. destruct (connectTimeout c) as [due|] eqn:E.
    + exact E.
    + eexists. split; [reflexivity|]. unfold timer_delay. lia.
Qed.

Lemma shards_tryConnect now c : shards (tryConnect now c) = shards c.
Proof. unfold tryConnect. destruct (connectTimeout c); reflexivity. Qed.

Lemma options_tryConnect now c :
  firstShardID (tryConnect now c) = firstShardID c
  /\ lastShardID (tryConnect now c) = lastShardID c.
Proof. unfold tryConnect. destruct (connectTimeout c); split; reflexivity. Qed.

Lemma shard_ids_queueConnect now i c :
  shard_ids (shards (queueConnect now i c)) = shard_ids (shards c).
Proof.
  unfold queueConnect. destruct (may_admit now c).
  - simpl. apply ids_set_flag.
  - rewrite shards_tryConnect. reflexivity.
Qed.

Lemma shard_ids_timeout_callback now c :
  shard_ids (shards (timeout_callback now c)) = shard_ids (shards c).
Proof.
  unfold timeout_callback. cbv zeta.
  match goal with
  | |- context [set_connectTimeout None ?x] =>
      assert (H : shard_ids (shards x) = shard_ids (shards c)); [|revert H; generalize x]
  end.
  - destruct ((0 <? length (connectQueue c))%nat && may_admit now c); [|reflexivity].
    destruct (connectQueue c); [reflexivity|]. simpl. apply ids_set_flag.
  - intros c1 H.
    destruct (0 <? length (connectQueue (set_connectTimeout None c1)))%nat;
      rewrite ?shards_tryConnect; exact H.
Qed.

Lemma shards_get_present i l : List.In i (shard_ids l) -> shards_get i l <> None.
Proof.
  unfold shards_get, shard_ids. induction l as [|s l IH]; simpl; [tauto|].
  destruct (Nat.eqb_spec (shard_id s) i) as [E|E]; [discriminate|].
  intros [H|H]; [contradiction | exact (IH H)].
Qed.

Lemma shards_get_absent i l : ~ List.In i (shard_ids l) -> shards_get i l = None.
Proof.
  unfold shards_get, shard_ids. induction l as [|s l IH]; simpl; [reflexivity|].
  destruct (Nat.eqb_spec (shard_id s) i) as [E|E]; [tauto|].
  intros H. apply IH. tauto.
Qed.

Lemma options_queueConnect now i c :
  firstShardID (queueConnect now i c) = firstShardID c
  /\ lastShardID (queueConnect now i c) = lastShardID c.
Proof.
  unfold queueConnect. destruct (may_admit now c); [split; reflexivity|].
  destruct (options_tryConnect now
              (log_request i (set_connectQueue (connectQueue c ++ [i]) c))) as [H1 H2].
  rewrite H1, H2. split; reflexivity.
Qed.

Lemma options_connect_shard now c i :
  firstShardID (connect_shard now c i) = firstShardID c
  /\ lastShardID (connect_shard now c i) = lastShardID c.
Proof.
  unfold connect_shard.
  destruct (options_queueConnect now i
              match shards_get i (shards c) with
              | Some _ => c
              | None => set_shards (shards c ++ [mkShard i false]) c
              end) as [H1 H2].
  rewrite H1, H2. destruct (shards_get i (shards c)); simpl; tauto.
Qed.

Lemma options_fold_connect now l : forall c,
  firstShardID (fold_left (connect_shard now) l c) = firstShardID c
  /\ lastShardID (fold_left (connect_shard now) l c) = lastShardID c.
Proof.
  induction l as [|i l IH]; simpl; intros c; [tauto|].
  destruct (IH (connect_shard now c i)) as [H1 H2].
  destruct (options_connect_shard now c i) as [H3 H4]. split; congruence.
Qed.

Lemma options_timeout_callback now c :
  firstShardID (timeout_callback now c) = firstShardID c
  /\ lastShardID (timeout_callback now c) = lastShardID c.
Proof.
  unfold timeout_callback. cbv zeta.
  match goal with
  | |- context [set_connectTimeout None ?x] =>
      assert (H : firstShardID x = firstShardID c /\ lastShardID x = lastShardID c);
        [|revert H; generalize x]
  end.
  - destruct ((0 <? length (connectQueue c))%nat && may_admit now c); [|tauto].
    destruct (connectQueue c); simpl; tauto.
  - intros c1 [H1 H2].
    destruct (0 <? length (connectQueue (set_connectTimeout None c1)))%nat.
    + destruct (options_tryConnect now (set_connectTimeout None c1)) as [H3 H4].
      rewrite H3, H4. simpl. tauto.
    + simpl. tauto.
Qed.

Lemma options_step c e :
  firstShardID (step c e) = firstShardID c /\ lastShardID (step c e) = lastShardID c.
Proof.
  destruct e as [now|now i|now|i|now i]; simpl; try tauto.
  - apply options_fold_connect.
  - destruct (shards_get i (shards c)); [apply options_queueConnect | tauto].
  - destruct (connectTimeout c) as [due|]; [|tauto].
    destruct (due <=? now); [apply options_timeout_callback | tauto].
Qed.

Lemma shard_ids_fold_fresh now first k : forall j c,
  shard_ids (shards c) = seq first j ->
  shard_ids (shards (fold_left (connect_shard now) (seq (first + j) k) c))
  = seq first (j + k).
Proof.
  induction k as [|k IH]; intros j c H; simpl.
  - rewrite Nat.add_0_r. exact H.
  - replace (S (first + j)) with (first + S j)%nat by lia.
    replace (j + S k)%nat with (S j + k)%nat by lia.
    apply IH. unfold connect_shard. rewrite shard_ids_queueConnect.
    rewrite shards_get_absent by (rewrite H, List.in_seq; lia).
    cbn [shards set_shards]. unfold shard_ids in *. rewrite List.map_app, H.
    exact (eq_sym (List.seq_S j first)).
Qed.

Lemma shard_ids_fold_present now l : forall c,
  (forall i, List.In i l -> List.In i (shard_ids (shards c))) ->
  shard_ids (shards (fold_left (connect_shard now) l c)) = shard_ids (shards c).
Proof.
  induction l as [|i l IH]; intros c H; simpl; [reflexivity|].
  assert (E : shard_ids (shards (connect_shard now c i)) = shard_ids (shards c)).
  { unfold connect_shard. rewrite shard_ids_queueConnect.
    destruct (shards_get i (shards c)) eqn:Eg; [reflexivity|].
    exfalso. apply (shards_get_present i (shards c)); [|exact Eg].
    apply H. left. reflexivity. }
  rewrite IH; [exact E|]. intros i' Hi'. rewrite E. apply H. right. exact Hi'.
Qed.

Lemma shard_ids_step c e :
  shard_ids (shards c) = [] \/ shard_ids (shards c) = configured_ids c ->
  shard_ids (shards (step c e))
  = if is_connect e then configured_ids c else shard_ids (shards c).
Proof.
  intros H. destruct e as [now|now i|now|i|now i]; simpl.
  - unfold connect_loop, configured_ids. destruct H as [H|H].
    + pose proof (shard_ids_fold_fresh now (firstShardID c)
                    (S (lastShardID c) - firstShardID c) 0%nat c H) as H'.
      rewrite Nat.add_0_r in H'. exact H'.
    + rewrite shard_ids_fold_present; [exact H|].
      intros i Hi. rewrite H. exact Hi.
  - destruct (shards_get i (shards c)); [apply shard_ids_queueConnect | reflexivity].
  - destruct (connectTimeout c) as [due|]; [|reflexivity].
    destruct (due <=? now); [|reflexivity]. apply shard_ids_timeout_callback.
  - apply ids_set_flag.
  - apply ids_set_flag.
Qed.

Lemma shard_ids_run evs : forall c,
  shard_ids (shards c) = [] \/ shard_ids (shards c) = configured_ids c ->
  shard_ids (shards (run c evs))
  = if existsb is_connect evs then configured_ids c else shard_ids (shards c).
Proof.
  induction evs as [|e evs IH]; intros c H; simpl; [reflexivity|].
  pose proof (shard_ids_step c e H) as Hs.
  destruct (options_step c e) as [Hf Hl].
  assert (Hc : configured_ids (step c e) = configured_ids c)
    by (unfold configured_ids; rewrite Hf, Hl; reflexivity).
  rewrite IH, Hc, Hs.
  - destruct (is_connect e); simpl; [|reflexivity].
    destruct (existsb is_connect evs); reflexivity.
  - rewrite Hc, Hs. destruct (is_connect e); [right; reflexivity | exact H].
Qed.

(** However often [connect] runs, and whatever else happens in between,
    the shard collection holds exactly one shard for each id from
    [firstShardID] to [lastShardID], in ascending order; before the first
    [connect] it is empty. *)
Theorem connect_creates_each_shard_once first last evs :
  shard_ids (shards (run (newClient first last) evs))
  = if existsb is_connect evs then seq first (S last - first) else [].
Proof.
  rewrite shard_ids_run; [reflexivity|]. left. reflexivity.
Qed.

Lemma quiet_timeout_callback now c :
  connectQueue c = [] ->
  admitLog (timeout_callback now c) = admitLog c
  /\ connectQueue (timeout_callback now c) = []
  /\ connectTimeout (timeout_callback now c) = None.
Proof.
  intros H. unfold timeout_callback. rewrite H. simpl. rewrite H. simpl. tauto.
Qed.

Lemma quiet_run evs : forall c,
  connectQueue c = [] ->
  forallb (fun e => negb (requests_connection e)) evs = true ->
  admitLog (run c evs) = admitLog c /\ connectQueue (run c evs) = [].
Proof.
  induction evs as [|e evs IH]; intros c Hq Hev; simpl; [tauto|].
  simpl in Hev. apply andb_true_iff in Hev as [He Hev].
  assert (Hs : admitLog (step c e) = admitLog c /\ connectQueue (step c e) = []).
  { destruct e as [now|now i|now|i|now i]; simpl in *; try discriminate; try tauto.
    destruct (connectTimeout c) as [due|]; [|tauto].
    destruct (due <=? now); [|tauto].
    destruct (quiet_timeout_callback now c Hq) as (H1 & H2 & _). tauto. }
  destruct Hs as [Ha Hq']. destruct (IH (step c e) Hq' Hev) as [H1 H2].
  split; [congruence | exact H2].
Qed.

(** After [disconnect], whatever the shards did on being told, the pending
    list is empty; and as long as nobody asks for a connection again, no
    timer that fires and no shard that settles makes the client call
    [connect()]: the shards that were waiting are never admitted. *)
Theorem disconnect_drops_pending (shards_disconnect : Client -> Client) c evs :
  forallb (fun e => negb (requests_connection e)) evs = true ->
  let c' := disconnect shards_disconnect c in
  connectQueue c' = []
  /\ admitLog (run c' evs) = admitLog c'
  /\ connectQueue (run c' evs) = [].
Proof.
  intros Hev. cbn zeta. split; [reflexivity|].
  apply quiet_run; [reflexivity | exact Hev].
Qed.

Lemma disconnect_drops_pending_witness :
  let c' := disconnect (fun c => c) (run (newClient 0 2) [Connect 10000]) in
  connectQueue (run (newClient 0 2) [Connect 10000]) = [1; 2]%nat
  /\ connectQueue c' = []
  /\ admitLog (run c' [ShardSettled 0; TimerFired 14750; TimerFired 20000]) = admitLog c'
  /\ connectQueue (run c' [ShardSettled 0; TimerFired 14750; TimerFired 20000]) = [].
Proof.
  cbn zeta. split; [reflexivity|].
  apply (disconnect_drops_pending (fun c => c) (run (newClient 0 2) [Connect 10000])
           [ShardSettled 0; TimerFired 14750; TimerFired 20000]).
  reflexivity.
Defined.

Lemma spaced_snoc gap l x :
  spaced gap l = true -> Forall (fun a => a + gap <= x) l -> spaced gap (l ++ [x]) = true.
Proof.
  induction l as [|a l IH]; intros Hs Hf; [reflexivity|].
  inversion Hf as [|? ? Ha Hl]; subst.
  destruct l as [|b l]; simpl.
  - rewrite andb_true_r. lia.
  - simpl in Hs. apply andb_true_iff in Hs as [Hab Hs].
    rewrite Hab. simpl. apply IH; assumption.
Qed.

Lemma timer_times_tryConnect now c : timer_times (tryConnect now c) = timer_times c.
Proof. unfold timer_times. rewrite admitLog_tryConnect. reflexivity. Qed.

Lemma paced_tryConnect t now c : t <= now -> paced t c -> paced now (tryConnect now c).
Proof.
  intros Ht (H1 & H2 & H3). unfold paced. rewrite timer_times_tryConnect.
  split; [exact H1|]. split.
  - eapply List.Forall_impl; [|exact H2]. simpl. intros a Ha. lia.
  - unfold tryConnect. destruct (connectTimeout c) as [d|] eqn:E.
    + intros due Hd. apply H3. congruence.
    + simpl. intros due Hd. inversion Hd; subst.
      eapply List.Forall_impl; [|exact H2]. simpl. intros a Ha.
      unfold timer_delay. lia.
Qed.

Lemma paced_later t now c : t <= now -> paced t c -> paced now c.
Proof.
  intros Ht (H1 & H2 & H3). split; [exact H1|]. split; [|exact H3].
  eapply List.Forall_impl; [|exact H2]. simpl. intros a Ha. lia.
Qed.

Lemma paced_queueConnect t now i c : t <= now -> paced t c -> paced now (queueConnect now i c).
Proof.
  intros Ht H. unfold queueConnect. destruct (may_admit now c).
  - apply (paced_later t now c Ht) in H. destruct H as (H1 & H2 & H3).
    unfold paced, timer_times in *. simpl. rewrite List.filter_app. simpl.
    rewrite List.app_nil_r. tauto.
  - apply (paced_tryConnect t); [exact Ht|].
    destruct H as (H1 & H2 & H3). unfold paced, timer_times in *. simpl. tauto.
Qed.

Lemma paced_timeout_callback t now c due :
  t <= now -> connectTimeout c = Some due -> due <= now ->
  paced t c -> paced now (timeout_callback now c).
Proof.
  intros Ht Hd Hdue (H1 & H2 & H3). specialize (H3 due Hd).
  unfold timeout_callback. cbv zeta.
  match goal with
  | |- context [set_connectTimeout None ?x] =>
      assert (H : spaced 250 (timer_times x) = true
                  /\ Forall (fun a => a <= now) (timer_times x));
        [|revert H; generalize x]
  end.
  - assert (Hnow : Forall (fun a => a <= now) (timer_times c)).
    { eapply List.Forall_impl; [|exact H2]. simpl. intros a Ha. lia. }
    destruct ((0 <? length (connectQueue c))%nat && may_admit now c); [|tauto].
    destruct (connectQueue c) as [|head rest]; [tauto|].
    unfold timer_times in *. simpl. rewrite List.filter_app, List.map_app. simpl. split.
    + apply spaced_snoc; [exact H1|].
      eapply List.Forall_impl; [|exact H3]. simpl. intros a Ha. lia.
    + apply List.Forall_app. split; [exact Hnow|]. constructor; [lia | constructor].
  - intros c1 [Hs Hf].
    assert (Hp : paced now (set_connectTimeout None c1)).
    { split; [exact Hs|]. split; [exact Hf|]. simpl. discriminate. }
    destruct (0 <? length (connectQueue (set_connectTimeout None c1)))%nat.
    + apply (paced_tryConnect now); [lia | exact Hp].
    + exact Hp.
Qed.

Lemma paced_fold_connect now l : forall t c,
  t <= now -> paced t c -> paced now (fold_left (connect_shard now) l c).
Proof.
  induction l as [|i l IH]; simpl; intros t c Ht H.
  - apply (paced_later t); assumption.
  - apply (IH now); [lia|]. unfold connect_shard. apply (paced_queueConnect t); [exact Ht|].
    destruct (shards_get i (shards c)); exact H.
Qed.

Lemma paced_run evs : forall t c,
  chronological t evs = true -> paced t c ->
  spaced 250 (timer_times (run c evs)) = true.
Proof.
  induction evs as [|e evs IH]; simpl; intros t c Hc H; [exact (proj1 H)|].
  destruct e as [now|now i|now|i|now i]; simpl in Hc;
    try (apply andb_true_iff in Hc as [Ht Hc]; apply Z.leb_le in Ht).
  - apply (IH now); [exact Hc|]. apply (paced_fold_connect now _ t); assumption.
  - apply (IH now); [exact Hc|]. simpl.
    destruct (shards_get i (shards c));
      [apply (paced_queueConnect t) | apply (paced_later t)]; assumption.
  - apply (IH now); [exact Hc|]. simpl.
    destruct (connectTimeout c) as [due|] eqn:Ed; [|apply (paced_later t); assumption].
    destruct (due <=? now) eqn:El; [|apply (paced_later t); assumption].
    apply (paced_timeout_callback t now c due); try assumption. lia.
  - apply (IH t); [exact Hc|]. exact H.
  - apply (IH now); [exact Hc|]. apply (paced_later t now) in H; [|exact Ht]. exact H.
Qed.

(** Along a run in which the clock does not go backwards, the timer
    callback never calls [connect()] twice within 250 ms: each run of the
    callback arms the next timer at least 250 ms ahead. *)
Theorem timer_admissions_250_apart first last t evs :
  chronological t evs = true ->
  spaced 250 (timer_times (run (newClient first last) evs)) = true.
Proof.
  intros Hc. apply (paced_run evs t); [exact Hc|].
  split; [reflexivity|]. split; [constructor|]. simpl. discriminate.
Qed.

Lemma timer_admissions_250_apart_witness :
  timer_times (run (newClient 0 2)
                 [Connect 10000; ShardReady 10100 0; TimerFired 14750; TimerFired 15000;
                  TimerFired 15250; TimerFired 15500; ShardSettled 1; TimerFired 20750])
  = [15500; 20750]
  /\ spaced 250 (timer_times (run (newClient 0 2)
                 [Connect 10000; ShardReady 10100 0; TimerFired 14750; TimerFired 15000;
                  TimerFired 15250; TimerFired 15500; ShardSettled 1; TimerFired 20750]))
     = true.
Proof.
  split; [reflexivity|].
  apply (timer_admissions_250_apart 0 2 0). reflexivity.
Defined.

End SequencerMore.

(** ** The gateway URL, continued *)

Section GatewayMore.
Import JS Rest Gateway.



Lemma prefix_nil s : String.prefix "" s = true.
Proof. destruct s; reflexivity. Qed.

Lemma append_nil_l (s : string) : ("" ++ s)%string = s.
Proof. reflexivity. Qed.

Lemma append_cons (ch : ascii) (a b : string) :
  (String ch a ++ b)%string = String ch (a ++ b)%string.
Proof. reflexivity. Qed.

Lemma append_assoc (a b c : string) : ((a ++ b) ++ c)%string = (a ++ b ++ c)%string.
Proof.
  induction a as [|ch a IH]; [reflexivity|].
  rewrite !append_cons, IH. reflexivity.
Qed.

Lemma index_question_cons ch s :
  String.index 0 "?" (String ch s)
  = if Ascii.eqb ch "?" then Some 0%nat
    else match String.index 0 "?" s with Some n => Some (S n) | None => None end.
Proof.
  cbn [String.index String.prefix].
  destruct (Ascii.eqb_spec ch "?") as [->|Hne].
  - destruct (ascii_dec "?" "?") as [_|F]; [|congruence]. rewrite prefix_nil. reflexivity.
  - destruct (ascii_dec "?" ch) as [E|_]; [congruence|]. reflexivity.
Qed.

Lemma index_question_app a b :
  includes "?" a = false ->
  indexOf "?" (a ++ String "?" b) = Some (String.length a).
Proof.
  unfold includes, indexOf. induction a as [|ch a IH]; intros H.
  - rewrite append_nil_l, index_question_cons. reflexivity.
  - rewrite append_cons. cbn [String.length]. rewrite index_question_cons in *.
    destruct (Ascii.eqb ch "?"); [discriminate|].
    destruct (String.index 0 "?" a) eqn:Ei; [discriminate|].
    rewrite IH; reflexivity.
Qed.

Lemma substring_app_l a b : substring 0 (String.length a) (a ++ b) = a.
Proof.
  induction a as [|ch a IH].
  - rewrite append_nil_l. destruct b; reflexivity.
  - rewrite append_cons. cbn [String.length substring]. rewrite IH. reflexivity.
Qed.

Lemma includes_question_app a b : includes "?" (a ++ String "?" b) = true.
Proof.
  unfold includes, indexOf. induction a as [|ch a IH].
  - rewrite append_nil_l, index_question_cons. reflexivity.
  - rewrite append_cons, index_question_cons.
    destruct (Ascii.eqb ch "?"); [reflexivity|].
    destruct (String.index 0 "?" (a ++ String "?" b)); [reflexivity | discriminate].
Qed.

Lemma includes_question_slash a :
  includes "?" a = false -> includes "?" (a ++ "/") = false.
Proof.
  unfold includes, indexOf. induction a as [|ch a IH]; intros H.
  - reflexivity.
  - rewrite append_cons. rewrite index_question_cons in *.
    destruct (Ascii.eqb ch "?"); [discriminate|].
    destruct (String.index 0 "?" a) eqn:Ei; [discriminate|].
    specialize (IH eq_refl).
    destruct (String.index 0 "?" (a ++ "/")); [discriminate | reflexivity].
Qed.

Lemma length_append a b : String.length (a ++ b) = (String.length a + String.length b)%nat.
Proof.
  induction a as [|ch a IH]; [reflexivity|].
  rewrite append_cons. cbn [String.length]. rewrite IH. reflexivity.
Qed.

Lemma substring_app_r a b :
  substring (String.length a) (String.length b) (a ++ b) = b.
Proof.
  induction a as [|ch a IH].
  - rewrite append_nil_l. cbn [String.length].
    induction b as [|ch b IHb]; [reflexivity|].
    cbn [String.length substring]. rewrite IHb. reflexivity.
  - rewrite append_cons. cbn [String.length substring]. exact IH.
Qed.

Lemma endsWith_slash_app a : endsWith "/" (a ++ "/") = true.
Proof.
  unfold endsWith. rewrite length_append. cbn [String.length].
  replace (String.length a + 1 - 1)%nat with (String.length a) by lia.
  pose proof (substring_app_r a "/") as H. cbn [String.length] in H. rewrite H.
  destruct (1 <=? String.length a + 1)%nat eqn:E; [reflexivity|].
  apply Nat.leb_gt in E. lia.
Qed.

(** The URL cached by [getGateway] does not depend on a query string or a
    closing slash in the URL the gateway reports: for a base without "?",
    the base itself, the base with a slash, and either of them followed by
    any query give the same result, which is the base, one slash, and
    [?encoding=json&v=] with the gateway version. *)
Theorem gateway_of_normal_form base query version :
  includes "?" base = false -> endsWith "/" base = false ->
  let g := (base ++ "/?encoding=json&v=" ++ toString version)%string in
  gateway_of base version = g
  /\ gateway_of (base ++ "/") version = g
  /\ gateway_of (base ++ "?" ++ query) version = g
  /\ gateway_of (base ++ "/?" ++ query) version = g.
Proof.
  intros Hq Hs. cbn zeta.
  assert (H1 : gateway_of base version
               = (base ++ "/?encoding=json&v=" ++ toString version)%string).
  { unfold gateway_of. rewrite Hq, Hs. rewrite append_assoc. reflexivity. }
  assert (H2 : gateway_of (base ++ "/") version
               = (base ++ "/?encoding=json&v=" ++ toString version)%string).
  { unfold gateway_of. rewrite (includes_question_slash _ Hq), endsWith_slash_app.
    rewrite append_assoc. reflexivity. }
  split; [exact H1|]. split; [exact H2|]. split.
  - rewrite <- H1. unfold gateway_of at 1.
    change (base ++ "?" ++ query)%string with (base ++ String "?" query)%string.
    rewrite includes_question_app, (index_question_app _ _ Hq), substring_app_l.
    unfold gateway_of. rewrite Hq. reflexivity.
  - rewrite <- H2. unfold gateway_of at 1.
    replace (base ++ "/?" ++ query)%string with ((base ++ "/") ++ String "?" query)%string
      by (rewrite append_assoc; reflexivity).
    rewrite includes_question_app,
      (index_question_app _ _ (includes_question_slash _ Hq)), substring_app_l.
    unfold gateway_of. rewrite (includes_question_slash _ Hq). reflexivity.
Qed.

Lemma gateway_of_normal_form_witness :
  gateway_of "wss://gateway.discord.gg" (JNum 6) = resolved_url
  /\ gateway_of "wss://gateway.discord.gg/" (JNum 6) = resolved_url
  /\ gateway_of "wss://gateway.discord.gg?v=5&encoding=etf" (JNum 6) = resolved_url
  /\ gateway_of "wss://gateway.discord.gg/?v=5&encoding=etf" (JNum 6) = resolved_url.
Proof.
  exact (gateway_of_normal_form "wss://gateway.discord.gg" "v=5&encoding=etf" (JNum 6)
           eq_refl eq_refl).
Defined.

End GatewayMore.

(** ** Chunked bulk deletion, continued *)

Section BulkDeleteMore.
Import JS Rest BulkDelete.

Lemma sent_prefix env k now ch ids :
  concat (List.map (fun s => request_ids (sent_req s)) (sent (deleteMessages env k now ch ids)))
  `prefix_of` ids.
Proof.
  funelim (deleteMessages env k now ch ids).
  - exists []. reflexivity.
  - exists []. reflexivity.
  - exists []. cbn [sent List.map concat sent_req]. rewrite request_ids_bulk.
    rewrite !List.app_nil_r. reflexivity.
  - destruct (failure (env k)); cbn [sent]; rewrite List.map_cons, List.concat_cons;
      cbn [sent_req]; rewrite request_ids_bulk.
    + exists (skipn 100 (s :: s0 :: l)). cbn [List.map concat].
      rewrite List.app_nil_r. symmetry. apply firstn_skipn.
    + destruct H as [rest Hrest]. exists rest.
      rewrite <- List.app_assoc, <- Hrest. symmetry. apply firstn_skipn.
Qed.

Lemma sent_count env k now ch ids :
  (length (sent (deleteMessages env k now ch ids)) <= (length ids + 99) / 100)%nat.
Proof.
  funelim (deleteMessages env k now ch ids).
  - simpl. lia.
  - reflexivity.
  - cbn [sent length] in *.
    assert (1 = (S (S (length l)) + 99) / 100)%nat; [|lia].
    apply Nat.div_unique with (r := (S (S (length l)) + 99 - 100)%nat); lia.
  - assert (Hd : ((length (s :: s0 :: l) + 99) / 100
                 = S ((length (skipn 100 (s :: s0 :: l)) + 99) / 100))%nat).
    { rewrite length_skipn. set (n := length (s :: s0 :: l)) in *.
      replace (n + 99)%nat with ((n - 100 + 99) + 1 * 100)%nat by lia.
      rewrite Nat.div_add by lia. lia. }
    rewrite Hd. destruct (failure (env k)); cbn [sent length]; lia.
Qed.

(** Whatever the replies, the messages named by the requests of
    [deleteMessages] are, in order, an initial stretch of the identifiers
    given: no message is named twice, none out of turn and none that was not
    asked for; and the requests number at most ceil(n / 100). *)
Theorem deleteMessages_names_prefix env now ch ids :
  let r := deleteMessages env 0 now ch ids in
  concat (List.map (fun s => request_ids (sent_req s)) (sent r)) `prefix_of` ids
  /\ (length (sent r) <= (length ids + 99) / 100)%nat.
Proof.
  cbn zeta. split; [apply sent_prefix | apply sent_count].
Qed.

(** With at most a hundred identifiers there is no chunking: none gives
    no request and a resolved promise; otherwise one request names them all,
    and the promise returned is that request's own, so that its failure
    reaches the caller. *)
Theorem deleteMessages_single_request env now ch ids :
  (length ids <= 100)%nat ->
  let r := deleteMessages env 0 now ch ids in
  detached r = []
  /\ match ids with
     | [] => sent r = [] /\ returned r = Resolved tt
     | _ :: _ => exists req, sent r = [mkSent now req]
                             /\ request_ids req = ids
                             /\ returned r = settle (env 0%nat)
     end.
Proof.
  intros Hl. cbn zeta. destruct ids as [|a [|b ids]].
  - simp deleteMessages. simpl. auto.
  - simp deleteMessages. simpl. split; [reflexivity|]. eexists. repeat split.
  - rewrite deleteMessages_few by (cbn [length] in *; lia). simpl.
    split; [reflexivity|]. eexists. split; [reflexivity|].
    split; [apply request_ids_bulk | reflexivity].
Qed.

Lemma deleteMessages_single_request_witness :
  let r := deleteMessages second_fails 1 0 "c" (message_ids 3) in
  let r' := deleteMessages second_fails 0 0 "c" (message_ids 100) in
  returned r = Rejected (Failure (JStr "Internal Server Error"))
  /\ detached r' = []
  /\ exists req, sent r' = [mkSent 0 req]
                 /\ request_ids req = message_ids 100
                 /\ returned r' = settle (second_fails 0%nat).
Proof.
  cbn zeta. split; [reflexivity|].
  apply (deleteMessages_single_request second_fails 0 "c" (message_ids 100)).
  vm_compute. lia.
Defined.

End BulkDeleteMore.

(** ** Mentions in outgoing text *)

Section MentionFacts.
Import JS Rest Messages Editing.

Lemma prefix_cons (c ch : ascii) (m s : string) :
  String.prefix (String c m) (String ch s) = Ascii.eqb c ch && String.prefix m s.
Proof.
  cbn [String.prefix]. destruct (ascii_dec c ch) as [->|Hne].
  - rewrite Ascii.eqb_refl. reflexivity.
  - apply Ascii.eqb_neq in Hne. rewrite Hne. reflexivity.
Qed.

Lemma occurs_cons needle ch s :
  occurs needle (String ch s) = String.prefix needle (String ch s) || occurs needle s.
Proof. reflexivity. Qed.

Section Replace.

(** A needle and its replacement that both begin with the mark [a]. *)
Variable a : ascii.
Variable n b : string.

(** A word without the mark at the head of the result was at the head of
    the input. *)
Lemma replace_keeps_head m : forall s,
  occurs (String a "") m = false ->
  String.prefix m (replace_from (String a n) (String a b) 0 s) = true ->
  String.prefix m s = true.
Proof.
  induction m as [|c m IH]; intros s Hm Hp; [apply prefix_nil|].
  rewrite occurs_cons, prefix_cons, prefix_nil, andb_true_r in Hm.
  apply orb_false_iff in Hm as [Hc Hm].
  destruct s as [|ch rest]; [discriminate|].
  cbn [replace_from] in Hp.
  destruct (String.prefix (String a n) (String ch rest)).
  - rewrite append_cons, prefix_cons in Hp.
    rewrite Ascii.eqb_sym in Hc. rewrite Hc in Hp. discriminate.
  - rewrite prefix_cons in *. apply andb_true_iff in Hp as [H1 H2].
    rewrite H1. simpl. apply IH; assumption.
Qed.

(** The word [String a m] is absent from the result when it is absent from
    the input or is the needle itself, provided the replacement brings no
    occurrence of its own. *)
Lemma replace_brings_no m :
  occurs (String a "") m = false ->
  (forall x, occurs (String a m) (String a b ++ x) = occurs (String a m) x) ->
  forall s k,
    occurs (String a m) s = false \/ m = n ->
    occurs (String a m) (replace_from (String a n) (String a b) k s) = false.
Proof.
  intros Hm Hb. induction s as [|ch rest IH]; intros k Hs.
  - destruct Hs as [Hs| ->]; [exact Hs|]. reflexivity.
  - assert (Hrest : occurs (String a m) rest = false \/ m = n).
    { destruct Hs as [Hs|Hs]; [|right; exact Hs]. left.
      rewrite occurs_cons in Hs. apply orb_false_iff in Hs. tauto. }
    cbn [replace_from]. destruct k as [|k]; [|apply IH; exact Hrest].
    destruct (String.prefix (String a n) (String ch rest)) eqn:Ep.
    + rewrite Hb. apply IH. exact Hrest.
    + rewrite occurs_cons, (IH 0%nat Hrest), orb_false_r.
      destruct (String.prefix (String a m)
                  (String ch (replace_from (String a n) (String a b) 0 rest))) eqn:Eh;
        [|reflexivity].
      exfalso. rewrite prefix_cons in Eh. apply andb_true_iff in Eh as [E1 E2].
      apply replace_keeps_head in E2; [|exact Hm].
      assert (Hp : String.prefix (String a m) (String ch rest) = true)
        by (rewrite prefix_cons, E1, E2; reflexivity).
      destruct Hs as [Hs| ->].
      * rewrite occurs_cons, Hp in Hs. discriminate.
      * rewrite Hp in Ep. discriminate.
Qed.

End Replace.

Lemma replace_absent needle by_ : forall s,
  occurs needle s = false -> replace_from needle by_ 0 s = s.
Proof.
  induction s as [|ch rest IH]; intros H; [reflexivity|].
  rewrite occurs_cons in H. apply orb_false_iff in H as [H1 H2].
  cbn [replace_from]. rewrite H1, (IH H2). reflexivity.
Qed.

Lemma mask_has_no_everyone s : occurs "@everyone" (mask_mentions s) = false.
Proof.
  unfold mask_mentions, replace_all.
  apply (replace_brings_no "@" "here" (zwsp ++ "here") "everyone").
  - reflexivity.
  - intros x. reflexivity.
  - left. apply (replace_brings_no "@" "everyone" (zwsp ++ "everyone") "everyone").
    + reflexivity.
    + intros x. reflexivity.
    + right. reflexivity.
Qed.

Lemma mask_has_no_here s : occurs "@here" (mask_mentions s) = false.
Proof.
  unfold mask_mentions, replace_all.
  apply (replace_brings_no "@" "here" (zwsp ++ "here") "here").
  - reflexivity.
  - intros x. reflexivity.
  - right. reflexivity.
Qed.

(** Masking a second time changes nothing, and a text that mentions
    neither everyone nor here passes unchanged. *)
Theorem mask_mentions_idempotent s :
  mask_mentions (mask_mentions s) = mask_mentions s
  /\ (occurs "@everyone" s = false -> occurs "@here" s = false -> mask_mentions s = s).
Proof.
  assert (H : forall t, occurs "@everyone" t = false -> occurs "@here" t = false ->
                        mask_mentions t = t).
  { intros t H1 H2. unfold mask_mentions, replace_all.
    rewrite (replace_absent "@everyone" _ t H1). apply replace_absent, H2. }
  split; [|apply H].
  apply H; [apply mask_has_no_everyone | apply mask_has_no_here].
Qed.

Lemma mask_mentions_idempotent_witness :
  mask_mentions "see you at 5" = "see you at 5"
  /\ mask_mentions (mask_mentions "@everyone look @here")
     = mask_mentions "@everyone look @here".
Proof.
  destruct (mask_mentions_idempotent "see you at 5") as [_ H].
  split; [apply H; reflexivity|].
  apply (mask_mentions_idempotent "@everyone look @here").
Defined.

(** When [createMessage] issues its request with masking in force, by the
    message's own [disableEveryone] or else by the client option, the text
    sent contains neither "@everyone" nor "@here"; without masking it is the
    normalised content as it stands. *)
Theorem createMessage_masks_mentions disableEveryone channelID content file fields r :
  normalize content = Some fields ->
  createMessage disableEveryone channelID content file = Requests r ->
  if masking disableEveryone (assoc "disableEveryone" fields)
  then exists s, body_text r = Some s
                 /\ occurs "@everyone" s = false /\ occurs "@here" s = false
  else body_text r = Some (content_string fields).
Proof.
  intros Hn. unfold createMessage. rewrite Hn.
  destruct (negb (truthy (assoc "content" fields)) && negb (truthy file)); [discriminate|].
  intros H. inversion H; subst r. clear H. unfold masking, body_text. cbn [req_body].
  destruct (truthy (if negb (is_undefined (assoc "disableEveryone" fields))
                    then assoc "disableEveryone" fields else disableEveryone)).
  - rewrite assoc_assoc_set. eexists. split; [reflexivity|].
    split; [apply mask_has_no_everyone | apply mask_has_no_here].
  - rewrite (normalize_content_is_string _ _ Hn). reflexivity.
Qed.

Lemma createMessage_masks_mentions_witness :
  exists s,
    body_text (mkRequest "POST" (CHANNEL_MESSAGES "c1") true
                 (JObj [("content", JStr (mask_mentions "hi @everyone"))]) JUndefined)
    = Some s
    /\ occurs "@everyone" s = false /\ occurs "@here" s = false.
Proof.
  exact (createMessage_masks_mentions (JBool true) "c1"
           (JObj [("content", JStr "hi @everyone")]) JUndefined
           [("content", JStr "hi @everyone")] _ eq_refl eq_refl).
Defined.

(** [editMessage] always sends a text: null and undefined go out as the
    words "null" and "undefined", and an empty text is sent as it is.  With
    masking in force, by the call's own [disableEveryone] or else by the
    client option, the text contains neither "@everyone" nor "@here";
    without, it is the text of [content] unchanged. *)
Theorem editMessage_sends_text optDisableEveryone channelID messageID content disableEveryone :
  let r := editMessage optDisableEveryone channelID messageID content disableEveryone in
  req_method r = "PATCH"
  /\ req_url r = CHANNEL_MESSAGE channelID messageID
  /\ (exists s, body_text r = Some s
        /\ if masking optDisableEveryone disableEveryone
           then occurs "@everyone" s = false /\ occurs "@here" s = false
           else s = edited_text content)
  /\ (content = JNull -> edited_text content = "null")
  /\ (content = JUndefined -> edited_text content = "undefined").
Proof.
  cbn zeta. split; [reflexivity|]. split; [reflexivity|]. split.
  - unfold editMessage, body_text. cbn [req_body assoc String.eqb Ascii.eqb Bool.eqb].
    eexists. split; [reflexivity|].
    destruct (masking optDisableEveryone disableEveryone);
      [split; [apply mask_has_no_everyone | apply mask_has_no_here] | reflexivity].
  - split; intros ->; reflexivity.
Qed.

Lemma editMessage_sends_text_witness :
  edited_text JNull = "null" /\ edited_text JUndefined = "undefined".
Proof.
  destruct (editMessage_sends_text (JBool true) "c1" "m1" JNull JUndefined)
    as (_ & _ & _ & H1 & _).
  destruct (editMessage_sends_text (JBool true) "c1" "m1" JUndefined JUndefined)
    as (_ & _ & _ & _ & H2).
  split; [apply H1 | apply H2]; reflexivity.
Defined.

End MentionFacts.

(** ** Member permissions *)

Section PermissionFacts.
Import Permissions.

Lemma toInt32_mod z : toInt32 z mod 2 ^ 32 = z mod 2 ^ 32.
Proof.
  unfold toInt32. rewrite Zminus_mod, Zmod_mod, <- Zminus_mod.
  f_equal. lia.
Qed.

Lemma testbit_toInt32 z n : 0 <= n < 32 -> Z.testbit (toInt32 z) n = Z.testbit z n.
Proof.
  intros Hn.
  rewrite <- (Z.mod_pow2_bits_low (toInt32 z) 32 n) by lia.
  rewrite toInt32_mod. apply Z.mod_pow2_bits_low. lia.
Qed.

Lemma testbit_bit_or a b n :
  0 <= n < 32 -> Z.testbit (bit_or a b) n = Z.testbit a n || Z.testbit b n.
Proof.
  intros Hn. unfold bit_or. rewrite testbit_toInt32, Z.lor_spec, !testbit_toInt32 by lia.
  reflexivity.
Qed.

Lemma included_or_l a b : included a (bit_or a b).
Proof. intros n Hn H. rewrite testbit_bit_or, H by lia. reflexivity. Qed.

Lemma included_or_r a b : included b (bit_or a b).
Proof. intros n Hn H. rewrite testbit_bit_or, H by lia. apply orb_true_r. Qed.

Lemma included_trans a b c : included a b -> included b c -> included a c.
Proof. intros H1 H2 n Hn H. apply H2, H1; assumption. Qed.

Lemma accumulate_includes all administrator g : forall rs permissions p,
  accumulate all administrator g permissions rs = Some p ->
  p = all
  \/ (included permissions p
      /\ forall role, List.In role rs ->
           exists perm, roles g !! role = Some perm /\ included perm p).
Proof.
  induction rs as [|role rest IH]; intros permissions p H; simpl in H.
  - inversion H; subst. right. split; [intros n _ Hb; exact Hb|]. intros role [].
  - destruct (roles g !! role) as [perm|] eqn:Er; [|discriminate].
    destruct (negb (bit_and perm administrator =? 0)); [inversion H; auto|].
    destruct (IH _ _ H) as [Hall|[Hi Hr]]; [left; exact Hall|]. right. split.
    + eapply included_trans; [apply included_or_l | exact Hi].
    + intros role' [<-|Hin]; [|apply Hr; exact Hin].
      exists perm. split; [exact Er|].
      eapply included_trans; [apply included_or_r | exact Hi].
Qed.

(** When the [permission] getter returns, the result is
    [Permissions.all], or else it contains, over the 32 bits of the bitwise
    operators, every permission bit of the guild's default role and of each
    role of the member.  The guild owner always gets [Permissions.all]. *)
Theorem permission_includes_roles all administrator g m p :
  permission all administrator g m = Some p ->
  (member_id m = ownerID g -> p = all)
  /\ (p = all
      \/ (exists everyone, roles g !! guild_id g = Some everyone /\ included everyone p)
         /\ forall role, List.In role (member_roles m) ->
              exists perm, roles g !! role = Some perm /\ included perm p).
Proof.
  unfold permission. destruct (String.eqb_spec (member_id m) (ownerID g)) as [E|E].
  - intros H. inversion H. auto.
  - destruct (roles g !! guild_id g) as [everyone|] eqn:Ee; [|discriminate].
    intros H. split; [contradiction|].
    destruct (accumulate_includes _ _ _ _ _ _ H) as [Ha|[Hi Hr]]; [left; exact Ha|].
    right. split; [exists everyone; auto | exact Hr].
Qed.

Lemma permission_includes_roles_witness :
  permission (Z.ones 31) 8 sample_guild (mkMember "u1" ["r1"; "r2"]) = Some 3075
  /\ (3075 = Z.ones 31
      \/ (exists everyone, roles sample_guild !! guild_id sample_guild = Some everyone
                           /\ included everyone 3075)
         /\ forall role, List.In role ["r1"; "r2"] ->
              exists perm, roles sample_guild !! role = Some perm /\ included perm 3075).
Proof.
  split; [reflexivity|].
  apply (permission_includes_roles (Z.ones 31) 8 sample_guild (mkMember "u1" ["r1"; "r2"]) 3075).
  reflexivity.
Defined.

Lemma toInt32_range z : - 2 ^ 31 <= toInt32 z < 2 ^ 31.
Proof.
  unfold toInt32. pose proof (Z.mod_pos_bound (z + 2 ^ 31) (2 ^ 32) ltac:(lia)). lia.
Qed.

Lemma low_bits_mod x y :
  (forall n, 0 <= n < 32 -> Z.testbit x n = Z.testbit y n) ->
  x mod 2 ^ 32 = y mod 2 ^ 32.
Proof.
  intros H. apply Z.bits_inj'. intros n Hn.
  destruct (Z.lt_ge_cases n 32) as [Hlt|Hge].
  - rewrite !Z.mod_pow2_bits_low by lia. apply H. lia.
  - rewrite !Z.mod_pow2_bits_high by lia. reflexivity.
Qed.

Lemma int32_eq x y :
  - 2 ^ 31 <= x < 2 ^ 31 -> - 2 ^ 31 <= y < 2 ^ 31 ->
  x mod 2 ^ 32 = y mod 2 ^ 32 -> x = y.
Proof.
  intros Hx Hy H.
  rewrite (Z.div_mod x (2 ^ 32)), (Z.div_mod y (2 ^ 32)), H by lia.
  assert (Hd : x / 2 ^ 32 = y / 2 ^ 32); [|rewrite Hd; reflexivity].
  pose proof (Z.mod_pos_bound x (2 ^ 32) ltac:(lia)) as Bx.
  pose proof (Z.mod_pos_bound y (2 ^ 32) ltac:(lia)) as By.
  pose proof (Z.div_mod x (2 ^ 32) ltac:(lia)) as Ex.
  pose proof (Z.div_mod y (2 ^ 32) ltac:(lia)) as Ey.
  lia.
Qed.

Lemma bit_or_swap p a b : bit_or (bit_or p a) b = bit_or (bit_or p b) a.
Proof.
  apply int32_eq; try apply toInt32_range.
  apply low_bits_mod. intros n Hn. rewrite !testbit_bit_or by lia.
  destruct (Z.testbit p n), (Z.testbit a n), (Z.testbit b n); reflexivity.
Qed.

Lemma fold_left_cons {A B : Type} (f : A -> B -> A) x l p :
  fold_left f (x :: l) p = fold_left f l (f p x).
Proof. reflexivity. Qed.

Lemma fold_bit_or_permutation l l' :
  Permutation l l' -> forall p, fold_left bit_or l p = fold_left bit_or l' p.
Proof.
  induction 1 as [|x l l' _ IH|x y l|l l' l'' _ IH1 _ IH2]; intros p.
  - reflexivity.
  - rewrite !fold_left_cons. apply IH.
  - rewrite !fold_left_cons, bit_or_swap. reflexivity.
  - rewrite IH1. apply IH2.
Qed.

Lemma accumulate_found all administrator g : forall rs permissions,
  Forall (fun role => is_Some (roles g !! role)) rs ->
  accumulate all administrator g permissions rs
  = Some (if existsb (is_admin administrator) (allowed g rs) then all
          else fold_left bit_or (allowed g rs) permissions).
Proof.
  induction rs as [|role rest IH]; intros permissions H; [reflexivity|].
  inversion H as [|? ? [perm Hp] Hrest]; subst.
  assert (Ea : allow_of g role = perm) by (unfold allow_of; rewrite Hp; reflexivity).
  cbn [accumulate]. rewrite Hp. unfold allowed. cbn [List.map existsb fold_left].
  rewrite Ea. unfold is_admin at 1.
  destruct (negb (bit_and perm administrator =? 0)); [reflexivity|].
  cbn [orb]. apply IH. exact Hrest.
Qed.

(** The order of a member's roles does not matter: when every role of the
    member is a role of the guild, two members with the same id whose role
    lists are permutations of each other get the same [permission]. *)
Theorem permission_ignores_role_order all administrator g id rs rs' :
  Permutation rs rs' ->
  Forall (fun role => is_Some (roles g !! role)) rs ->
  permission all administrator g (mkMember id rs)
  = permission all administrator g (mkMember id rs').
Proof.
  intros Hp Hf. unfold permission. cbn [member_id member_roles].
  destruct (String.eqb id (ownerID g)); [reflexivity|].
  destruct (roles g !! guild_id g) as [everyone|]; [|reflexivity].
  assert (Hf' : Forall (fun role => is_Some (roles g !! role)) rs').
  { rewrite List.Forall_forall in *. intros role Hin. apply Hf.
    apply (Permutation_in _ (Permutation_sym Hp)). exact Hin. }
  rewrite !accumulate_found by assumption.
  assert (Ha : Permutation (allowed g rs) (allowed g rs'))
    by (apply Permutation_map; exact Hp).
  assert (He : existsb (is_admin administrator) (allowed g rs)
               = existsb (is_admin administrator) (allowed g rs')).
  { apply eq_true_iff_eq. rewrite !List.existsb_exists. split; intros (x & Hx & Hb);
      exists x; split; try exact Hb;
      [apply (Permutation_in _ Ha) | apply (Permutation_in _ (Permutation_sym Ha))]; exact Hx. }
  rewrite He, (fold_bit_or_permutation _ _ Ha). reflexivity.
Qed.

Lemma permission_ignores_role_order_witness :
  permission (Z.ones 31) 8 sample_guild (mkMember "u1" ["r1"; "r2"])
  = permission (Z.ones 31) 8 sample_guild (mkMember "u1" ["r2"; "r1"]).
Proof.
  apply permission_ignores_role_order.
  - apply perm_swap.
  - repeat constructor; eexists; reflexivity.
Defined.

End PermissionFacts.

(** ** Moving roles and channels *)

Section ReorderFacts.
Import JS Positions.

Context {A : Type}.
Variable ident : A -> string.
Variable pos : A -> Z.

Lemma insert_sorted_perm x l : Permutation (insert_sorted pos x l) (x :: l).
Proof.
  induction l as [|y l IH]; simpl; [reflexivity|].
  destruct (pos x <=? pos y); [reflexivity|].
  rewrite IH. apply perm_swap.
Qed.

Lemma sort_by_position_perm l : Permutation (sort_by_position pos l) l.
Proof.
  induction l as [|x l IH]; simpl; [reflexivity|].
  rewrite insert_sorted_perm, IH. reflexivity.
Qed.

Lemma insert_sorted_ascending x l :
  ascending pos l -> ascending pos (insert_sorted pos x l).
Proof.
  induction l as [|y l IH]; simpl; intros H; [split; [constructor | exact I]|].
  destruct H as [Hy Hl]. destruct (pos x <=? pos y) eqn:E.
  - apply Z.leb_le in E. simpl. split; [|split; assumption].
    constructor; [exact E|].
    eapply List.Forall_impl; [|exact Hy]. simpl. intros z Hz. lia.
  - apply Z.leb_gt in E. simpl. split; [|apply IH; exact Hl].
    rewrite (insert_sorted_perm x l). constructor; [lia | exact Hy].
Qed.

Lemma sort_by_position_ascending l : ascending pos (sort_by_position pos l).
Proof.
  induction l as [|x l IH]; simpl; [exact I|]. apply insert_sorted_ascending, IH.
Qed.

Lemma consecutive_cons lo n : consecutive lo (S n) = lo :: consecutive (lo + 1) n.
Proof.
  unfold consecutive. simpl. f_equal; [lia|].
  rewrite <- List.seq_shift, List.map_map. apply List.map_ext. intros i. lia.
Qed.

(** An ascending list without equal positions whose positions are exactly
    the integers from [lo] to [hi] lists them in order. *)
Lemma ascending_fills l : forall lo hi,
  ascending pos l -> List.NoDup (List.map pos l) ->
  (forall z, (exists x, List.In x l /\ pos x = z) <-> lo <= z <= hi) ->
  List.map pos l = consecutive lo (length l) /\ Z.of_nat (length l) = Z.max 0 (hi - lo + 1).
Proof.
  induction l as [|a l IH]; intros lo hi Ha Hnd Hz.
  - split; [reflexivity|]. simpl.
    destruct (Z.le_gt_cases lo hi) as [Hle|Hgt]; [|lia].
    destruct (proj2 (Hz lo) ltac:(lia)) as (x & [] & _).
  - destruct Ha as [Hfa Ha]. simpl in Hnd. inversion Hnd as [|? ? Hni Hnd']; subst.
    assert (Hin : lo <= pos a <= hi) by (apply Hz; exists a; split; [left|]; reflexivity).
    assert (Hlt : Forall (fun y => pos a < pos y) l).
    { rewrite List.Forall_forall in *. intros y Hy. specialize (Hfa y Hy).
      destruct (Z.eq_dec (pos a) (pos y)) as [E|E]; [|lia].
      exfalso. apply Hni. rewrite E. apply List.in_map. exact Hy. }
    assert (Hlo : pos a = lo).
    { destruct (proj2 (Hz lo) ltac:(lia)) as (x & [<-|Hx] & Hp); [exact Hp|].
      rewrite List.Forall_forall in Hlt. specialize (Hlt x Hx). lia. }
    destruct (IH (lo + 1) hi Ha Hnd') as [IH1 IH2].
    { intros z. split.
      - intros (x & Hx & Hp). subst z.
        rewrite List.Forall_forall in Hlt. specialize (Hlt x Hx).
        assert (lo <= pos x <= hi) by (apply Hz; exists x; split; [right|]; auto). lia.
      - intros Hr. destruct (proj2 (Hz z) ltac:(lia)) as (x & [<-|Hx] & Hp); [lia|].
        exists x. split; assumption. }
    split.
    + simpl List.map. simpl length. rewrite consecutive_cons, Hlo, IH1. reflexivity.
    + simpl length. lia.
Qed.

Lemma renumber_cons start x l :
  renumber ident start (x :: l) = (ident x, start) :: renumber ident (start + 1) l.
Proof.
  unfold renumber. rewrite imap_cons. f_equal.
  apply imap_ext. intros i y _. simpl. f_equal. lia.
Qed.

Lemma renumber_app start l x :
  renumber ident start (l ++ [x])
  = renumber ident start l ++ [(ident x, Z.of_nat (length l) + start)].
Proof.
  revert start. induction l as [|y l IH]; intros start.
  - reflexivity.
  - cbn [app length]. rewrite !renumber_cons, IH. cbn [app].
    replace (Z.of_nat (S (length l)) + start) with (Z.of_nat (length l) + (start + 1)) by lia.
    reflexivity.
Qed.

Lemma renumber_positions start l :
  List.map snd (renumber ident start l) = consecutive start (length l).
Proof.
  revert start. induction l as [|y l IH]; intros start; [reflexivity|].
  rewrite renumber_cons. cbn [List.map snd length]. rewrite consecutive_cons, IH. reflexivity.
Qed.

Lemma renumber_filled l : forall lo start,
  List.map pos l = consecutive lo (length l) ->
  renumber ident start l = List.map (fun x => (ident x, pos x - lo + start)) l.
Proof.
  induction l as [|y l IH]; intros lo start H; [reflexivity|].
  cbn [length List.map] in H. rewrite consecutive_cons in H. inversion H as [[Hy Hl]].
  rewrite renumber_cons, (IH (lo + 1) (start + 1)) by (rewrite <- Hy; exact Hl).
  cbn [List.map]. f_equal; [f_equal; lia|].
  apply List.map_ext. intros x. f_equal. lia.
Qed.

(** The heart of both position edits.  [others] are the items found in the
    interval, the moved one apart; they have distinct positions and leave no
    place of the interval empty. *)
Lemma rotation moved position others :
  pos moved <> position ->
  List.NoDup (List.map pos others) ->
  (forall x, List.In x others ->
     Z.min position (pos moved) <= pos x <= Z.max position (pos moved)
     /\ pos x <> pos moved /\ ident x <> ident moved) ->
  (forall z, Z.min position (pos moved) <= z <= Z.max position (pos moved) ->
     z <> pos moved -> exists x, List.In x others /\ pos x = z) ->
  let l := with_moved pos position moved (sort_by_position pos others) in
  renumber ident (Z.min position (pos moved)) l
  = List.map (fun x => (ident x, target ident pos (ident moved) (pos moved) position x)) l.
Proof.
  intros Hne Hnd Hin Hfill. cbn zeta.
  set (sorted := sort_by_position pos others).
  assert (Hperm : Permutation sorted others) by apply sort_by_position_perm.
  assert (Hnd' : List.NoDup (List.map pos sorted)).
  { eapply Permutation_NoDup; [|exact Hnd]. apply Permutation_map, Permutation_sym, Hperm. }
  assert (Hasc : ascending pos sorted) by apply sort_by_position_ascending.
  assert (Hin' : forall x, List.In x sorted <-> List.In x others).
  { intros x. split; apply Permutation_in; [|apply Permutation_sym]; exact Hperm. }
  assert (Htarget : forall x, List.In x sorted ->
            target ident pos (ident moved) (pos moved) position x
            = if position >? pos moved then pos x - 1 else pos x + 1).
  { intros x Hx. unfold target. apply Hin', Hin in Hx as (_ & _ & Hid).
    apply String.eqb_neq in Hid. rewrite Hid. reflexivity. }
  assert (Hmoved : target ident pos (ident moved) (pos moved) position moved = position)
    by (unfold target; rewrite String.eqb_refl; reflexivity).
  unfold with_moved. destruct (position >? pos moved) eqn:Eup.
  - apply Z.gtb_lt in Eup.
    destruct (ascending_fills sorted (pos moved + 1) position Hasc Hnd') as [Hmap Hlen].
    { intros z. split.
      - intros (x & Hx & Hp). apply Hin', Hin in Hx. lia.
      - intros Hz. destruct (Hfill z ltac:(lia) ltac:(lia)) as (x & Hx & Hp).
        exists x. split; [apply Hin'|]; assumption. }
    rewrite renumber_app, List.map_app. cbn [List.map]. rewrite Hmoved. f_equal.
    + rewrite (renumber_filled _ (pos moved + 1)) by exact Hmap.
      apply List.map_ext_in. intros x Hx. rewrite (Htarget x Hx). f_equal. lia.
    + do 2 f_equal. lia.
  - assert (Hdown : position < pos moved) by (rewrite Z.gtb_ltb in Eup; apply Z.ltb_ge in Eup; lia).
    destruct (ascending_fills sorted position (pos moved - 1) Hasc Hnd') as [Hmap Hlen].
    { intros z. split.
      - intros (x & Hx & Hp). apply Hin', Hin in Hx. lia.
      - intros Hz. destruct (Hfill z ltac:(lia) ltac:(lia)) as (x & Hx & Hp).
        exists x. split; [apply Hin'|]; assumption. }
    rewrite renumber_cons. cbn [List.map]. rewrite Hmoved. f_equal; [f_equal; lia|].
    rewrite (renumber_filled _ position) by exact Hmap.
    apply List.map_ext_in. intros x Hx. rewrite (Htarget x Hx). f_equal. lia.
Qed.

Lemma with_moved_in position moved others x :
  List.In x (with_moved pos position moved others) <-> x = moved \/ List.In x others.
Proof.
  unfold with_moved. destruct (position >? pos moved).
  - rewrite List.in_app_iff. simpl. intuition.
  - simpl. intuition.
Qed.

End ReorderFacts.

Section PositionFacts.
Import JS Positions.

Lemma NoDup_map_inj {A B : Type} (f : A -> B) (l : list A) x y :
  List.NoDup (List.map f l) -> List.In x l -> List.In y l -> f x = f y -> x = y.
Proof.
  induction l as [|a l IH]; intros Hnd Hx Hy E; [destruct Hx|].
  simpl in Hnd. inversion Hnd as [|? ? Hni Hnd']; subst.
  destruct Hx as [<-|Hx], Hy as [<-|Hy]; auto.
  - exfalso. apply Hni. rewrite E. apply List.in_map. exact Hy.
  - exfalso. apply Hni. rewrite <- E. apply List.in_map. exact Hx.
Qed.

Lemma NoDup_map_filter {A B : Type} (f : A -> B) (p : A -> bool) (l : list A) :
  List.NoDup (List.map f l) -> List.NoDup (List.map f (List.filter p l)).
Proof.
  induction l as [|a l IH]; intros Hnd; [constructor|].
  simpl in Hnd. inversion Hnd as [|? ? Hni Hnd']; subst. simpl.
  destruct (p a); [|apply IH; exact Hnd'].
  simpl. constructor; [|apply IH; exact Hnd'].
  intros Hin. apply Hni. apply List.in_map_iff in Hin as (x & Hx & Hf).
  apply List.filter_In in Hf as [Hf _]. apply List.in_map_iff. eauto.
Qed.

Lemma filter_within {A : Type} (p q : A -> bool) (l : list A) :
  (forall x, p x = true -> q x = true) ->
  List.filter p l = List.filter p (List.filter q l).
Proof.
  intros H. induction l as [|a l IH]; [reflexivity|]. simpl.
  destruct (p a) eqn:Ep.
  - rewrite (H a Ep). simpl. rewrite Ep, IH. reflexivity.
  - destruct (q a); simpl; rewrite ?Ep; exact IH.
Qed.

Lemma find_by_id {A : Type} (ident : A -> string) (l : list A) x :
  List.NoDup (List.map ident l) -> List.In x l ->
  List.find (fun y => String.eqb (ident y) (ident x)) l = Some x.
Proof.
  induction l as [|a l IH]; intros Hnd Hx; [destruct Hx|].
  simpl. destruct (String.eqb_spec (ident a) (ident x)) as [E|E].
  - f_equal. apply (NoDup_map_inj ident (a :: l)); auto. left. reflexivity.
  - destruct Hx as [->|Hx]; [contradiction|].
    simpl in Hnd. inversion Hnd; subst. apply IH; assumption.
Qed.

(** In a guild whose roles have distinct ids and distinct positions, with
    no position between the old and the new place left empty,
    [editRolePosition] sends one PATCH to the guild's roles route that names
    exactly the roles lying between the two places, in the order of their
    new positions: the moved role at [position], every other one place
    towards the slot it leaves. *)
Theorem editRolePosition_rotates guilds guildID roleID position roles role :
  guildID <> roleID ->
  guilds !! guildID = Some roles ->
  List.NoDup (List.map role_id roles) ->
  List.NoDup (List.map role_position roles) ->
  List.In role roles -> role_id role = roleID ->
  role_position role <> position ->
  let min := Z.min position (role_position role) in
  let max := Z.max position (role_position role) in
  (forall z, min <= z <= max -> exists r, List.In r roles /\ role_position r = z) ->
  exists l,
    editRolePosition guilds guildID roleID position
    = Requests (mkPatch (GUILD_ROLES guildID)
                  (List.map (fun r => (role_id r,
                                       target role_id role_position roleID
                                              (role_position role) position r)) l))
    /\ (forall r, List.In r l <-> List.In r roles /\ min <= role_position r <= max)
    /\ List.map (fun r => target role_id role_position roleID (role_position role) position r) l
       = consecutive min (length l).
Proof.
  intros Hg Hroles Hids Hpos Hin Hid Hne min max Hdense.
  set (keep := fun r => (min <=? role_position r) && (role_position r <=? max)
                        && negb (String.eqb (role_id r) roleID)).
  set (others := List.filter keep roles).
  assert (Hkeep : forall r, List.In r others <->
            List.In r roles /\ min <= role_position r <= max /\ role_id r <> roleID).
  { intros r. unfold others, keep. rewrite List.filter_In, !andb_true_iff, negb_true_iff.
    rewrite String.eqb_neq, !Z.leb_le. tauto. }
  assert (Hrot := rotation role_id role_position role position others Hne
                    (NoDup_map_filter _ _ _ Hpos)).
  cbn zeta in Hrot. rewrite Hid in Hrot. fold min in Hrot.
  exists (with_moved role_position position role (sort_by_position role_position others)).
  assert (Hbody : renumber role_id min
                    (with_moved role_position position role
                       (sort_by_position role_position others))
                  = List.map (fun r => (role_id r,
                                        target role_id role_position roleID
                                               (role_position role) position r))
                      (with_moved role_position position role
                         (sort_by_position role_position others))).
  { apply Hrot.
    - intros x Hx. apply Hkeep in Hx as (Hx & Hr & Hi). split; [exact Hr|].
      split; [|congruence]. intros E. apply Hi. rewrite <- Hid. f_equal.
      apply (NoDup_map_inj role_position roles); assumption.
    - intros z Hz Hzne. destruct (Hdense z Hz) as (r & Hr & Hp). exists r.
      split; [|exact Hp]. apply Hkeep. split; [exact Hr|]. split; [lia|].
      intros E. apply Hzne. rewrite <- Hp. f_equal.
      apply (NoDup_map_inj role_id roles); congruence. }
  split; [|split].
  - unfold editRolePosition.
    destruct (String.eqb_spec guildID roleID) as [E|_]; [contradiction|].
    rewrite Hroles, <- Hid, (find_by_id role_id roles role Hids Hin).
    destruct (Z.eqb_spec (role_position role) position) as [E|_]; [contradiction|].
    cbn zeta. rewrite Hid. fold min max keep others. rewrite Hbody. reflexivity.
  - intros r. rewrite (with_moved_in role_id role_position).
    assert (Hs : List.In r (sort_by_position role_position others) <-> List.In r others).
    { split; apply Permutation_in; [|apply Permutation_sym];
        apply sort_by_position_perm. }
    rewrite Hs, Hkeep. split.
    + intros [->|H]; [|tauto]. split; [exact Hin|]. subst min max. lia.
    + intros [Hr Hrange]. destruct (String.eqb_spec (role_id r) roleID) as [E|E].
      * left. apply (NoDup_map_inj role_id roles); congruence.
      * right. tauto.
  - rewrite <- (renumber_positions role_id min), Hbody, List.map_map. reflexivity.
Qed.

Lemma editRolePosition_rotates_witness :
  editRolePosition {[ "g" := sample_roles ]} "g" "a" 3
  = Requests (mkPatch (GUILD_ROLES "g") [("b", 1); ("c", 2); ("a", 3)]).
Proof.
  destruct (editRolePosition_rotates {[ "g" := sample_roles ]} "g" "a" 3
              sample_roles (mkRole "a" 1)) as (l & Hl & _).
  - discriminate.
  - reflexivity.
  - repeat (constructor; [simpl; intuition discriminate|]). constructor.
  - repeat (constructor; [simpl; intuition discriminate|]). constructor.
  - simpl. tauto.
  - reflexivity.
  - discriminate.
  - intros z Hz. simpl in Hz.
    assert (Hc : z = 1 \/ z = 2 \/ z = 3) by lia.
    destruct Hc as [-> | [-> | ->]];
      [exists (mkRole "a" 1) | exists (mkRole "b" 2) | exists (mkRole "c" 3)];
      (split; [simpl; tauto | reflexivity]).
  - reflexivity.
Defined.

(** The same for channels, each type having its own sequence of
    positions: when the channels of the moved channel's type have distinct
    positions that leave no place between the old and the new one empty,
    [editChannelPosition] sends one PATCH to the guild's channels route
    naming exactly the channels of that type between the two places, the
    moved one at [position] and every other one place towards the slot it
    leaves. *)
Theorem editChannelPosition_rotates channelGuildMap guilds guildID channelID position
        channels channel :
  channelGuildMap !! channelID = Some guildID ->
  guilds !! guildID = Some channels ->
  List.NoDup (List.map chan_id channels) ->
  let same := fun c => strict_eq (chan_type c) (chan_type channel) in
  List.NoDup (List.map chan_position (List.filter same channels)) ->
  List.In channel channels -> chan_id channel = channelID -> same channel = true ->
  chan_position channel <> position ->
  let min := Z.min position (chan_position channel) in
  let max := Z.max position (chan_position channel) in
  (forall z, min <= z <= max ->
     exists c, List.In c channels /\ same c = true /\ chan_position c = z) ->
  exists l,
    editChannelPosition channelGuildMap guilds channelID position
    = Requests (mkPatch (GUILD_CHANNELS guildID)
                  (List.map (fun c => (chan_id c,
                                       target chan_id chan_position channelID
                                              (chan_position channel) position c)) l))
    /\ (forall c, List.In c l <->
          List.In c channels /\ same c = true /\ min <= chan_position c <= max)
    /\ List.map (fun c => target chan_id chan_position channelID
                                 (chan_position channel) position c) l
       = consecutive min (length l).
Proof.
  intros Hmap Hchannels Hids same Hpos Hin Hid Hsame Hne min max Hdense.
  set (keep := fun c => strict_eq (chan_type c) (chan_type channel)
                        && (min <=? chan_position c) && (chan_position c <=? max)
                        && negb (String.eqb (chan_id c) channelID)).
  set (others := List.filter keep channels).
  assert (Hkeep : forall c, List.In c others <->
            List.In c channels /\ same c = true
            /\ min <= chan_position c <= max /\ chan_id c <> channelID).
  { intros c. unfold others, keep, same.
    rewrite List.filter_In, !andb_true_iff, negb_true_iff.
    rewrite String.eqb_neq, !Z.leb_le. tauto. }
  assert (Hsub : forall c, List.In c others -> List.In c (List.filter same channels)).
  { intros c Hc. apply Hkeep in Hc. apply List.filter_In. tauto. }
  assert (Hnd : List.NoDup (List.map chan_position others)).
  { unfold others. rewrite (filter_within keep same).
    - apply NoDup_map_filter. exact Hpos.
    - intros c Hc. unfold keep in Hc. rewrite !andb_true_iff in Hc. tauto. }
  assert (Hmoved : List.In channel (List.filter same channels))
    by (apply List.filter_In; auto).
  assert (Hrot := rotation chan_id chan_position channel position others Hne Hnd).
  cbn zeta in Hrot. rewrite Hid in Hrot. fold min in Hrot.
  exists (with_moved chan_position position channel (sort_by_position chan_position others)).
  assert (Hbody : renumber chan_id min
                    (with_moved chan_position position channel
                       (sort_by_position chan_position others))
                  = List.map (fun c => (chan_id c,
                                        target chan_id chan_position channelID
                                               (chan_position channel) position c))
                      (with_moved chan_position position channel
                         (sort_by_position chan_position others))).
  { apply Hrot.
    - intros x Hx. pose proof (Hsub x Hx) as Hx'.
      apply Hkeep in Hx as (Hx & Hs & Hr & Hi). split; [exact Hr|].
      split; [|congruence]. intros E. apply Hi. rewrite <- Hid. f_equal.
      apply (NoDup_map_inj chan_position (List.filter same channels)); assumption.
    - intros z Hz Hzne. destruct (Hdense z Hz) as (c & Hc & Hs & Hp). exists c.
      split; [|exact Hp]. apply Hkeep. split; [exact Hc|]. split; [exact Hs|].
      split; [lia|]. intros E. apply Hzne. rewrite <- Hp. f_equal.
      apply (NoDup_map_inj chan_id channels); congruence. }
  split; [|split].
  - unfold editChannelPosition. rewrite Hmap, Hchannels.
    rewrite <- Hid, (find_by_id chan_id channels channel Hids Hin).
    destruct (Z.eqb_spec (chan_position channel) position) as [E|_]; [contradiction|].
    cbn zeta. rewrite Hid. fold min max keep others. rewrite Hbody. reflexivity.
  - intros c. rewrite (with_moved_in chan_id chan_position).
    assert (Hs : List.In c (sort_by_position chan_position others) <-> List.In c others).
    { split; apply Permutation_in; [|apply Permutation_sym];
        apply sort_by_position_perm. }
    rewrite Hs, Hkeep. split.
    + intros [->|H]; [|tauto]. split; [exact Hin|]. split; [exact Hsame|].
      subst min max. lia.
    + intros (Hc & Hs' & Hrange). destruct (String.eqb_spec (chan_id c) channelID) as [E|E].
      * left. apply (NoDup_map_inj chan_id channels); congruence.
      * right. tauto.
  - rewrite <- (renumber_positions chan_id min), Hbody, List.map_map. reflexivity.
Qed.

Lemma editChannelPosition_rotates_witness :
  editChannelPosition {[ "t2" := "g" ]} {[ "g" := sample_channels ]} "t2" 0
  = Requests (mkPatch (GUILD_CHANNELS "g") [("t2", 0); ("t0", 1); ("t1", 2)]).
Proof.
  destruct (editChannelPosition_rotates {[ "t2" := "g" ]} {[ "g" := sample_channels ]}
              "g" "t2" 0 sample_channels (mkChannel "t2" 2 (JNum 0))) as (l & Hl & _).
  - reflexivity.
  - reflexivity.
  - repeat (constructor; [simpl; intuition discriminate|]). constructor.
  - repeat (constructor; [simpl; intuition discriminate|]). constructor.
  - simpl. tauto.
  - reflexivity.
  - reflexivity.
  - discriminate.
  - intros z Hz. simpl in Hz.
    assert (Hc : z = 0 \/ z = 1 \/ z = 2) by lia.
    destruct Hc as [-> | [-> | ->]];
      [exists (mkChannel "t0" 0 (JNum 0)) | exists (mkChannel "t1" 1 (JNum 0))
       | exists (mkChannel "t2" 2 (JNum 0))];
      (split; [simpl; tauto | split; reflexivity]).
  - reflexivity.
Defined.

End PositionFacts.

(** ** Message history *)

Section HistoryFacts.
Import JS Rest History.

Context {Message : Type}.
Variable newMessage : RawMessage -> Message.

Lemma get_bounded env k limit logs b a :
  0 < limit ->
  let r := get Message newMessage env k limit logs b a in
  Forall (fun q => q_limit q = 100 /\ q_around q = JUndefined) (queries r)
  /\ (1 <= length (queries r))%nat
  /\ Z.of_nat (length (queries r)) <= limit / 100 + 1
  /\ forall l, result r = Resolved l ->
       Z.of_nat (length l) <= Z.of_nat (length logs) + limit.
Proof.
  cbn zeta. funelim (get Message newMessage env k limit logs b a); intros Hpos.
  - simpl. repeat split; try (constructor; [split; reflexivity | constructor]); try lia.
    + pose proof (Z.div_pos limit 100). lia.
    + discriminate.
  - simpl. repeat split; try (constructor; [split; reflexivity | constructor]); try lia.
    + pose proof (Z.div_pos limit 100). lia.
    + intros l0 H. inversion H; subst. destruct (truthy _after);
        rewrite List.length_app, List.length_map, ?length_skipn, ?length_firstn; lia.
  - simpl. repeat split; try (constructor; [split; reflexivity | constructor]); try lia.
    + pose proof (Z.div_pos limit 100). lia.
    + intros l0 H. inversion H; subst. destruct (truthy _after);
        rewrite List.length_app, List.length_map; lia.
  - cbn zeta. cbn [queries result].
    specialize (H ltac:(lia)). destruct H as (H1 & H2 & H3 & H4).
    split; [constructor; [split; reflexivity | exact H1]|].
    split; [cbn [length]; lia|]. split.
    + cbn [length].
      assert (Hd : (limit - Z.of_nat (length messages)) / 100 + 1 <= limit / 100).
      { replace limit with ((limit - 100) + 1 * 100) at 2 by lia.
        rewrite Z.div_add by lia.
        pose proof (Z.div_le_mono (limit - Z.of_nat (length messages)) (limit - 100) 100). lia. }
      lia.
    + intros l0 Hl. specialize (H4 l0 Hl).
      destruct (truthy _after); rewrite List.length_app, List.length_map in H4; lia.
Qed.

(** Asked for more than a hundred messages, [getMessages] fetches pages of
    100, [around] being left out of the queries: at least one query and at
    most [limit / 100 + 1] of them are sent, and when the promise resolves
    it never holds more messages than asked for. *)
Theorem getMessages_at_most_limit env n before after around :
  100 < n ->
  let r := getMessages Message newMessage env (Some n) before after around in
  Forall (fun q => q_limit q = 100 /\ q_around q = JUndefined) (queries r)
  /\ (1 <= length (queries r))%nat
  /\ Z.of_nat (length (queries r)) <= n / 100 + 1
  /\ forall l, result r = Resolved l -> Z.of_nat (length l) <= n.
Proof.
  intros Hn. cbn zeta. unfold getMessages.
  replace (negb (n =? 0) && (n >? 100)) with true
    by (symmetry; apply andb_true_iff; split; [apply negb_true_iff|]; lia).
  destruct (get_bounded env 0 n [] before after ltac:(lia)) as (H1 & H2 & H3 & H4).
  repeat split; try assumption; lia.
Qed.

Lemma get_head env k limit logs b a :
  queries (get Message newMessage env k limit logs b a) !! 0%nat
  = Some (mkQuery 100 (or_undefined b) (or_undefined a) JUndefined).
Proof.
  funelim (get Message newMessage env k limit logs b a); reflexivity.
Qed.

Lemma get_before_result env k limit logs b a :
  0 < limit -> truthy a = false ->
  let r := get Message newMessage env k limit logs b a in
  forall l, result r = Resolved l ->
    l = (logs ++ List.map newMessage
           (firstn (Z.to_nat limit) (replies env k (length (queries r)))))%list.
Proof.
  cbn zeta. funelim (get Message newMessage env k limit logs b a); intros Hpos Ha.
  - discriminate.
  - intros l0 Hl. cbn [queries result length replies] in *. rewrite Heq0.
    rewrite Ha in Hl. inversion Hl; subst. rewrite app_nil_r. reflexivity.
  - intros l0 Hl. cbn [queries result length replies] in *. rewrite Heq1.
    rewrite Ha in Hl. inversion Hl; subst. rewrite app_nil_r.
    rewrite firstn_all2 by lia. reflexivity.
  - cbn zeta. cbn [queries result length replies]. rewrite Heq1.
    intros l0 Hl. rewrite Ha in H, Hl |- *.
    specialize (H ltac:(lia) Ha l0 Hl). rewrite H at 1.
    rewrite firstn_app, List.map_app, <- app_assoc.
    rewrite (firstn_all2 messages) by lia.
    replace (Z.to_nat (limit - Z.of_nat (length messages)))
      with (Z.to_nat limit - length messages)%nat by lia.
    reflexivity.
Qed.

Lemma get_before_cursors env k limit logs b a :
  truthy a = false ->
  forall i q, queries (get Message newMessage env k limit logs b a) !! S i = Some q ->
    exists messages, env (k + i)%nat = inr messages
      /\ q = mkQuery 100 (or_undefined (last_id messages)) JUndefined JUndefined.
Proof.
  funelim (get Message newMessage env k limit logs b a); intros Ha i q Hq;
    try discriminate.
  cbn zeta in Hq. cbn [queries] in Hq. change ((?x :: ?l) !! S ?i) with (l !! i) in Hq.
  rewrite Ha in H, Hq. rewrite orb_true_r in H, Hq.
  destruct i as [|j].
  - rewrite get_head in Hq. exists messages. rewrite Nat.add_0_r. split; [assumption|].
    inversion Hq. unfold or_undefined at 2. rewrite Ha. reflexivity.
  - destruct (H Ha j q Hq) as (ms & He & Hm). exists ms.
    rewrite Nat.add_succ_r. split; assumption.
Qed.

(** Paging backwards (no [after] cursor), for more than a hundred messages:
    when the promise resolves it holds the replies' messages in the order
    they arrived, cut to the number asked for; and every query after the
    first asks for the messages before the last one of the reply just
    received. *)
Theorem getMessages_pages_backwards env n before after around :
  100 < n -> truthy after = false ->
  let r := getMessages Message newMessage env (Some n) before after around in
  (forall l, result r = Resolved l ->
     l = List.map newMessage
           (firstn (Z.to_nat n) (replies env 0 (length (queries r)))))
  /\ (forall i q, queries r !! S i = Some q ->
        exists messages, env i = inr messages
          /\ q = mkQuery 100 (or_undefined (last_id messages)) JUndefined JUndefined).
Proof.
  intros Hn Ha. cbn zeta. unfold getMessages.
  replace (negb (n =? 0) && (n >? 100)) with true
    by (symmetry; apply andb_true_iff; split; [apply negb_true_iff|]; lia).
  split.
  - intros l Hl. exact (get_before_result env 0 n [] before after ltac:(lia) Ha l Hl).
  - intros i q Hq. exact (get_before_cursors env 0 n [] before after Ha i q Hq).
Qed.

Lemma first_id_truthy env k messages :
  with_ids env -> env k = inr messages -> ~ (length messages < 100)%nat ->
  truthy (first_id messages) = true.
Proof.
  intros Hids He Hlen. specialize (Hids k messages He).
  destruct messages as [|m ms]; [simpl in Hlen; lia|].
  inversion Hids; subst. assumption.
Qed.

Lemma get_after_result env k limit logs b a :
  with_ids env -> 0 < limit -> truthy a = true ->
  let r := get Message newMessage env k limit logs b a in
  forall l, result r = Resolved l ->
    let all := replies_stacked env k (length (queries r)) in
    l = (List.map newMessage (skipn (length all - Z.to_nat limit) all) ++ logs)%list.
Proof.
  intros Hids. cbn zeta.
  funelim (get Message newMessage env k limit logs b a); intros Hpos Ha.
  - discriminate.
  - intros l0 Hl. cbn [queries result length replies_stacked] in *. rewrite Heq0.
    rewrite Ha in Hl. inversion Hl; subst. reflexivity.
  - intros l0 Hl. cbn [queries result length replies_stacked] in *. rewrite Heq1.
    rewrite Ha in Hl. inversion Hl; subst. cbn [app].
    replace (length messages - Z.to_nat limit)%nat with 0%nat by lia. reflexivity.
  - cbn zeta. cbn [queries result length replies_stacked]. rewrite Heq1.
    intros l0 Hl. rewrite Ha in H, Hl |- *.
    pose proof (first_id_truthy env k messages Hids Heq1 n) as Hf.
    specialize (H Hids ltac:(lia) Hf l0 Hl). rewrite H at 1.
    match goal with |- context [replies_stacked env (S k) ?m] =>
      generalize (replies_stacked env (S k) m) end.
    intros all. rewrite List.length_app, skipn_app, List.map_app, <- app_assoc.
    replace (length all + length messages - Z.to_nat limit)%nat
      with (length all - Z.to_nat (limit - Z.of_nat (length messages)))%nat by lia.
    replace (length all - Z.to_nat (limit - Z.of_nat (length messages)) - length all)%nat
      with 0%nat by lia.
    reflexivity.
Qed.

Lemma get_after_cursors env k limit logs b a :
  with_ids env -> truthy a = true ->
  forall i q, queries (get Message newMessage env k limit logs b a) !! S i = Some q ->
    exists messages, env (k + i)%nat = inr messages
      /\ q_after q = first_id messages.
Proof.
  intros Hids.
  funelim (get Message newMessage env k limit logs b a); intros Ha i q Hq;
    try discriminate.
  cbn zeta in Hq. cbn [queries] in Hq. change ((?x :: ?l) !! S ?i) with (l !! i) in Hq.
  rewrite Ha in H, Hq.
  pose proof (first_id_truthy env k messages Hids Heq1 n) as Hf.
  destruct i as [|j].
  - rewrite get_head in Hq. exists messages. rewrite Nat.add_0_r. split; [assumption|].
    inversion Hq. cbn [q_after]. unfold or_undefined. rewrite Hf. reflexivity.
  - destruct (H Hids Hf j q Hq) as (ms & He & Hm). exists ms.
    rewrite Nat.add_succ_r. split; assumption.
Qed.

(** Paging forwards (an [after] cursor), for more than a hundred messages
    whose ids are truthy: every query after the first asks for the messages
    after the first one of the reply just received, each reply is put in
    front of the earlier ones, and when the promise resolves it holds the
    last [limit] messages of that stack. *)
Theorem getMessages_pages_forwards env n before after around :
  with_ids env -> 100 < n -> truthy after = true ->
  let r := getMessages Message newMessage env (Some n) before after around in
  (forall l, result r = Resolved l ->
     let all := replies_stacked env 0 (length (queries r)) in
     l = List.map newMessage (skipn (length all - Z.to_nat n) all))
  /\ (forall i q, queries r !! S i = Some q ->
        exists messages, env i = inr messages /\ q_after q = first_id messages).
Proof.
  intros Hids Hn Ha. cbn zeta. unfold getMessages.
  replace (negb (n =? 0) && (n >? 100)) with true
    by (symmetry; apply andb_true_iff; split; [apply negb_true_iff|]; lia).
  split.
  - intros l Hl.
    rewrite (get_after_result env 0 n [] before after Hids ltac:(lia) Ha l Hl).
    apply app_nil_r.
  - intros i q Hq. exact (get_after_cursors env 0 n [] before after Hids Ha i q Hq).
Qed.

End HistoryFacts.

Section HistoryExamples.
Import JS Rest History.

(** 250 messages asked of a channel that holds 230: three queries of 100,
    and all 230 messages delivered. *)
Lemma getMessages_at_most_limit_witness :
  let r := getMessages RawMessage (fun m => m) three_pages (Some 250)
             JUndefined JUndefined JUndefined in
  List.map q_limit (queries r) = [100; 100; 100]
  /\ (exists l, result r = Resolved l /\ length l = 230%nat)
  /\ forall l, result r = Resolved l -> Z.of_nat (length l) <= 250.
Proof.
  cbn zeta. split; [vm_compute; reflexivity|]. split.
  - eexists. split; [vm_compute; reflexivity | reflexivity].
  - exact (proj2 (proj2 (proj2
      (getMessages_at_most_limit (fun m => m) three_pages 250
         JUndefined JUndefined JUndefined ltac:(lia))))).
Defined.

(** The same channel paged backwards from message 999: the second and
    third queries start before messages 99 and 199. *)
Lemma getMessages_pages_backwards_witness :
  let r := getMessages RawMessage (fun m => m) three_pages (Some 250)
             (JStr "999") JUndefined JUndefined in
  List.map q_before (queries r)
  = [JStr "999"; JStr "99"; JStr "199"]
  /\ (forall l, result r = Resolved l ->
        l = List.map (fun m => m)
              (firstn (Z.to_nat 250)
                 (replies three_pages 0 (length (queries r)))))
  /\ (forall i q, queries r !! S i = Some q ->
        exists messages, three_pages i = inr messages
          /\ q = mkQuery 100 (or_undefined (last_id messages))
                   JUndefined JUndefined).
Proof.
  cbn zeta. split; [vm_compute; reflexivity|].
  apply (getMessages_pages_backwards (fun m => m) three_pages 250
           (JStr "999") JUndefined JUndefined); [lia | reflexivity].
Defined.

(** The same channel paged forwards from message 0: the second and third
    queries start after messages 0 and 100. *)
Lemma getMessages_pages_forwards_witness :
  let r := getMessages RawMessage (fun m => m) three_pages (Some 250)
             JUndefined (JStr "0") JUndefined in
  List.map q_after (queries r)
  = [JStr "0"; JStr "0"; JStr "100"]
  /\ (forall l, result r = Resolved l ->
        let all := replies_stacked three_pages 0
                     (length (queries r)) in
        l = List.map (fun m => m) (skipn (length all - Z.to_nat 250) all))
  /\ (forall i q, queries r !! S i = Some q ->
        exists messages, three_pages i = inr messages
          /\ q_after q = first_id messages).
Proof.
  cbn zeta. split; [vm_compute; reflexivity|].
  apply (getMessages_pages_forwards (fun m => m) three_pages 250
           JUndefined (JStr "0") JUndefined); [| lia | reflexivity].
  intros k messages He.
  destruct k as [|[|k]]; inversion He; subst; vm_compute; repeat constructor.
Defined.

End HistoryExamples.
